(** * The time-series storage core of banyand/tsdb: global item ids and series

    A shallow embedding of [banyand/tsdb/series.go]: the 24-byte codec of
    [GlobalItemID] and the [Series] / [SeriesSpan] facade over the block
    database.  Unsigned Go integers are values of [N] below their width,
    byte slices are [list byte], a Go [error] is an [option error] ([None]
    is [nil]), and a run-time panic of Go is the [None] of an outer option. *)

From Stdlib Require Import NArith ZArith List Lia Bool.
From Stdlib Require Import Strings.Byte Strings.String.
Import ListNotations.

Local Open Scope N_scope.

(** ** Global item ids *)

(** [common.ShardID] is a [uint32], [segID] and [blockID] are [uint16],
    [common.SeriesID] and [common.ItemID] are [uint64]. *)
Record GlobalItemID : Type := mkGlobalItemID {
  ShardID : N;
  segID : N;
  blockID : N;
  SeriesID : N;
  ID : N
}.

(** ** Errors *)

(** An argument handed to a format verb; only item ids are formatted here. *)
Inductive fmtarg : Type :=
| ArgGlobalItemID (id : GlobalItemID).

(** Go [error] values.  The three sentinels of [series.go], the wrapper
    built by [errors.WithMessagef] (format string and arguments are kept as
    they were passed), the flat aggregate of [go.uber.org/multierr], and the
    errors that collaborators produce, told apart by a code. *)
#[warnings="-register-all"]
Inductive error : Type :=
| ErrEmptySeriesSpan
| ErrItemIDMalformed
| ErrBlockAbsent
| WithMessagef (cause : error) (format : string) (args : list fmtarg)
| multiError (errs : list error)
| Upstream (code : N).

(** [errors.Cause]: strip the message wrappers. *)
Fixpoint Cause (e : error) : error :=
  match e with
  | WithMessagef c _ _ => Cause c
  | _ => e
  end.

Module multierr.

(** [multierr.Errors]: the list an error stands for. *)
Definition Errors (err : option error) : list error :=
  match err with
  | None => []
  | Some (multiError es) => es
  | Some e => [e]
  end.

(** [multierr.Append]: [nil] is neutral, two errors are flattened into one
    aggregate. *)
Definition Append (left right : option error) : option error :=
  match left, right with
  | None, _ => right
  | _, None => left
  | Some _, Some _ => Some (multiError (Errors left ++ Errors right))
  end.

End multierr.

(** ** Byte conversions *)

Module convert.

(** Go's [byte(v)]: the low eight bits. *)
Definition byte_of (v : N) : byte :=
  match Byte.of_N (v mod 256) with
  | Some b => b
  | None => x00
  end.

(** Modelled from the spec: package [pkg/convert] is not among the sources;
    the spec fixes big-endian network order for every field, so the writers
    put the most significant byte first, as [binary.BigEndian.PutUintN]. *)
Definition Uint16ToBytes (u : N) : list byte :=
  [byte_of (N.shiftr u 8); byte_of u].

(** Modelled from the spec: [convert.Uint32ToBytes], absent from the
    sources; four bytes, big-endian. *)
Definition Uint32ToBytes (u : N) : list byte :=
  [byte_of (N.shiftr u 24); byte_of (N.shiftr u 16);
   byte_of (N.shiftr u 8); byte_of u].

(** Modelled from the spec: [convert.Uint64ToBytes], absent from the
    sources; eight bytes, big-endian. *)
Definition Uint64ToBytes (u : N) : list byte :=
  [byte_of (N.shiftr u 56); byte_of (N.shiftr u 48);
   byte_of (N.shiftr u 40); byte_of (N.shiftr u 32);
   byte_of (N.shiftr u 24); byte_of (N.shiftr u 16);
   byte_of (N.shiftr u 8); byte_of u].

(** Modelled from the spec: the readers of [pkg/convert], big-endian as
    [binary.BigEndian.UintN]: they read the leading bytes and panic ([None])
    on a slice that is too short. *)
Definition BytesToUint16 (b : list byte) : option N :=
  match b with
  | b0 :: b1 :: _ => Some (N.lor (to_N b1) (N.shiftl (to_N b0) 8))
  | _ => None
  end.

(** Modelled from the spec: [convert.BytesToUint32], absent from the
    sources; the big-endian numeral of the four leading bytes. *)
Definition BytesToUint32 (b : list byte) : option N :=
  match b with
  | b0 :: b1 :: b2 :: b3 :: _ =>
      Some (N.lor (N.lor (N.lor (to_N b3) (N.shiftl (to_N b2) 8))
                         (N.shiftl (to_N b1) 16))
                  (N.shiftl (to_N b0) 24))
  | _ => None
  end.

(** Modelled from the spec: [convert.BytesToUint64], absent from the
    sources; the big-endian numeral of the eight leading bytes. *)
Definition BytesToUint64 (b : list byte) : option N :=
  match b with
  | b0 :: b1 :: b2 :: b3 :: b4 :: b5 :: b6 :: b7 :: _ =>
      Some (N.lor (N.lor (N.lor (N.lor (N.lor (N.lor (N.lor
              (to_N b7) (N.shiftl (to_N b6) 8)) (N.shiftl (to_N b5) 16))
              (N.shiftl (to_N b4) 24)) (N.shiftl (to_N b3) 32))
              (N.shiftl (to_N b2) 40)) (N.shiftl (to_N b1) 48))
              (N.shiftl (to_N b0) 56))
  | _ => None
  end.

End convert.

(** ** Byte slices *)

(** [data[lo:hi]]; out of range is a panic. *)
Definition slice (data : list byte) (lo hi : nat) : option (list byte) :=
  if ((lo <=? hi)%nat && (hi <=? List.length data)%nat)%bool
  then Some (firstn (hi - lo) (skipn lo data))
  else None.

(** [data[lo:]]. *)
Definition slice_from (data : list byte) (lo : nat) : option (list byte) :=
  slice data lo (List.length data).

(** [bytes.Join(parts, nil)]: concatenation with an empty separator. *)
Definition bytes_Join (parts : list (list byte)) : list byte :=
  List.concat parts.

(** [bytes.Compare]: lexicographic order on unsigned bytes, a proper prefix
    being smaller. *)
Fixpoint bytes_Compare (a b : list byte) : comparison :=
  match a, b with
  | [], [] => Eq
  | [], _ :: _ => Lt
  | _ :: _, [] => Gt
  | x :: a', y :: b' =>
      match N.compare (to_N x) (to_N y) with
      | Eq => bytes_Compare a' b'
      | c => c
      end
  end.

(** ** The codec of global item ids *)

(** The ranges that the Go field types impose. *)
Definition wf_GlobalItemID (i : GlobalItemID) : Prop :=
  ShardID i < 2 ^ 32 /\ segID i < 2 ^ 16 /\ blockID i < 2 ^ 16 /\
  SeriesID i < 2 ^ 64 /\ ID i < 2 ^ 64.

Definition Marshal (i : GlobalItemID) : list byte :=
  bytes_Join [convert.Uint32ToBytes (ShardID i);
              convert.Uint16ToBytes (segID i);
              convert.Uint16ToBytes (blockID i);
              convert.Uint64ToBytes (SeriesID i);
              convert.Uint64ToBytes (ID i)].

Definition set_ShardID (v : N) (i : GlobalItemID) : GlobalItemID :=
  mkGlobalItemID v (segID i) (blockID i) (SeriesID i) (ID i).
Definition set_segID (v : N) (i : GlobalItemID) : GlobalItemID :=
  mkGlobalItemID (ShardID i) v (blockID i) (SeriesID i) (ID i).
Definition set_blockID (v : N) (i : GlobalItemID) : GlobalItemID :=
  mkGlobalItemID (ShardID i) (segID i) v (SeriesID i) (ID i).
Definition set_SeriesID (v : N) (i : GlobalItemID) : GlobalItemID :=
  mkGlobalItemID (ShardID i) (segID i) (blockID i) v (ID i).
Definition set_ID (v : N) (i : GlobalItemID) : GlobalItemID :=
  mkGlobalItemID (ShardID i) (segID i) (blockID i) (SeriesID i) v.

Notation "x <- c ;; k" :=
  (match c with Some x => k | None => None end)
  (at level 61, c at next level, right associativity).

(** [UnMarshal] writes through its pointer receiver: the result is the
    receiver after the call and the returned error; [None] is a panic. *)
Definition UnMarshal (i : GlobalItemID) (data : list byte)
  : option (GlobalItemID * option error) :=
  if negb (List.length data =? 4 + 2 + 2 + 8 + 8)%nat then
    Some (i, Some ErrItemIDMalformed)
  else
    let offset := 0%nat in
    s <- slice data offset (offset + 4) ;;
    v <- convert.BytesToUint32 s ;;
    let i := set_ShardID v i in
    let offset := (offset + 4)%nat in
    s <- slice data offset (offset + 2) ;;
    v <- convert.BytesToUint16 s ;;
    let i := set_segID v i in
    let offset := (offset + 2)%nat in
    s <- slice data offset (offset + 2) ;;
    v <- convert.BytesToUint16 s ;;
    let i := set_blockID v i in
    let offset := (offset + 2)%nat in
    s <- slice data offset (offset + 8) ;;
    v <- convert.BytesToUint64 s ;;
    let i := set_SeriesID v i in
    let offset := (offset + 8)%nat in
    s <- slice_from data offset ;;
    v <- convert.BytesToUint64 s ;;
    let i := set_ID v i in
    Some (i, None).

(** The order of the tuples [(ShardID, segID, blockID, SeriesID, ID)]. *)
Definition tupleCompare (a b : GlobalItemID) : comparison :=
  match N.compare (ShardID a) (ShardID b) with
  | Eq =>
    match N.compare (segID a) (segID b) with
    | Eq =>
      match N.compare (blockID a) (blockID b) with
      | Eq =>
        match N.compare (SeriesID a) (SeriesID b) with
        | Eq => N.compare (ID a) (ID b)
        | c => c
        end
      | c => c
      end
    | c => c
    end
  | c => c
  end.

(** ** Big-endian numerals *)

(** The number that a byte string denotes, most significant byte first. *)
Definition be_value (bs : list byte) : N :=
  fold_left (fun acc b => acc * 256 + to_N b) bs 0.

(** The [k] low bytes of [v], most significant first. *)
Fixpoint be_bytes (k : nat) (v : N) : list byte :=
  match k with
  | O => []
  | S k' => convert.byte_of (v / 256 ^ N.of_nat k') :: be_bytes k' v
  end.

(** ** Time ranges *)

(** [time.Time]: an instant, counted in nanoseconds. *)
Definition Time : Type := Z.
Bind Scope Z_scope with Time.

(** Modelled from the spec: package [pkg/timestamp] is not among the
    sources; a time range is [[start, end]] with inclusivity flags, and the
    inclusive constructor sets both. *)
Record TimeRange : Type := mkTimeRange {
  Start : Time;
  End : Time;
  IncludeStart : bool;
  IncludeEnd : bool
}.

(** Modelled from the spec: [timestamp.NewInclusiveTimeRange], absent from
    the sources; the range [[start, end]] with both ends included. *)
Definition NewInclusiveTimeRange (start end_ : Time) : TimeRange :=
  mkTimeRange start end_ true true.

(** ** The block database and its delegates *)

(** A [BlockDelegate] is a lease on one block, named by its handle; a [nil]
    delegate is the [None] of an option. *)
Definition BlockDelegate : Type := N.

(** What [dataReader()] of a delegate hands out: a reader, named by the
    block it reads. *)
Inductive TimeSeriesReader : Type :=
| dataReaderOf (b : BlockDelegate).

(** Go's [(value, error)] results of the collaborator's methods. *)
Inductive result (A : Type) : Type :=
| Ok (a : A)
| Err (err : error).
Arguments Ok {A} a.
Arguments Err {A} err.

(** The calls that [series.go] makes on its collaborators: the methods of
    the [blockDatabase] interface, and [dataReader] and [Close] of a
    delegate. *)
Inductive dbcall : Type :=
| blockDB_shardID
| blockDB_block (id : GlobalItemID)
| blockDB_span (timeRange : TimeRange)
| blockDB_create (t : Time)
| delegate_dataReader (b : BlockDelegate)
| delegate_Close (b : BlockDelegate).

Definition answer (c : dbcall) : Type :=
  match c with
  | blockDB_shardID => N
  | blockDB_block _ => result (option BlockDelegate)
  | blockDB_span _ => result (list BlockDelegate)
  | blockDB_create _ => result BlockDelegate
  | delegate_dataReader _ => TimeSeriesReader
  | delegate_Close _ => option error
  end.

(** A method body of [series.go]: it returns, or calls a collaborator and
    goes on with the answer. *)
Inductive prog (A : Type) : Type :=
| Ret (a : A)
| Call (c : dbcall) (k : answer c -> prog A).
Arguments Ret {A} a.
Arguments Call {A} c k.

Definition call (c : dbcall) : prog (answer c) := Call c Ret.

Fixpoint bind {A B : Type} (p : prog A) (f : A -> prog B) : prog B :=
  match p with
  | Ret a => f a
  | Call c k => Call c (fun r => bind (k r) f)
  end.

Declare Scope prog_scope.
Delimit Scope prog_scope with prog.
Notation "x <~ c ;; k" := (bind c (fun x => k))
  (at level 61, c at next level, right associativity) : prog_scope.

(** A collaborator: it answers every call and moves its own state [W]. *)
Definition handler (W : Type) : Type := forall c : dbcall, W -> answer c * W.

(** Running a method against a collaborator gives what it returns, the
    collaborator's state afterwards, and the calls made, oldest first. *)
Fixpoint run {W A : Type} (h : handler W) (p : prog A) (w : W)
  : A * W * list dbcall :=
  match p with
  | Ret a => (a, w, [])
  | Call c k =>
      let (r, w1) := h c w in
      let '(a, w2, calls) := run h (k r) w1 in
      (a, w2, c :: calls)
  end.

Definition returned {W A : Type} (x : A * W * list dbcall) : A := fst (fst x).
Definition state_after {W A : Type} (x : A * W * list dbcall) : W := snd (fst x).
Definition calls_of {W A : Type} (x : A * W * list dbcall) : list dbcall := snd x.

Definition is_create (c : dbcall) : bool :=
  match c with blockDB_create _ => true | _ => false end.

Definition create_calls (calls : list dbcall) : list dbcall :=
  filter is_create calls.

(** ** Series *)

(** The logger field [l] and the context argument carry no decision of
    these methods and are left out; [blockDB] is the collaborator that the
    method is run against. *)
Record series : Type := mkSeries {
  series_id : N;
  series_shardID : N
}.

Record seriesSpan : Type := mkSeriesSpan {
  span_blocks : list BlockDelegate;
  span_seriesID : N;
  span_shardID : N;
  span_timeRange : TimeRange
}.

Record item : Type := mkItem {
  item_data : TimeSeriesReader;
  item_itemID : N;
  item_seriesID : N
}.

Definition newSeriesSpan (timeRange : TimeRange) (blocks : list BlockDelegate)
  (id shardID : N) : seriesSpan :=
  mkSeriesSpan blocks id shardID timeRange.

Definition newSeries (id : N) : prog series :=
  (shardID <~ call blockDB_shardID ;;
   Ret (mkSeries id shardID))%prog.

Definition series_ID (s : series) : N := series_id s.

(** [Get] returns the item and the delegate itself as its [io.Closer]. *)
Definition Get (s : series) (id : GlobalItemID)
  : prog (result (item * BlockDelegate)) :=
  (r <~ call (blockDB_block id) ;;
   match r with
   | Err err => Ret (Err err)
   | Ok None =>
       Ret (Err (WithMessagef ErrBlockAbsent "id: %v" [ArgGlobalItemID id]))
   | Ok (Some b) =>
       data <~ call (delegate_dataReader b) ;;
       Ret (Ok (mkItem data (ID id) (series_id s), b))
   end)%prog.

Definition Span (s : series) (timeRange : TimeRange)
  : prog (result seriesSpan) :=
  (r <~ call (blockDB_span timeRange) ;;
   match r with
   | Err err => Ret (Err err)
   | Ok blocks =>
       if (List.length blocks <? 1)%nat then Ret (Err ErrEmptySeriesSpan)
       else Ret (Ok (newSeriesSpan timeRange blocks
                       (series_id s) (series_shardID s)))
   end)%prog.

Definition Create (s : series) (t : Time) : prog (result seriesSpan) :=
  (let tr := NewInclusiveTimeRange t t in
   r <~ call (blockDB_span tr) ;;
   match r with
   | Err err => Ret (Err err)
   | Ok blocks =>
       if (0 <? List.length blocks)%nat then
         Ret (Ok (newSeriesSpan tr blocks (series_id s) (series_shardID s)))
       else
         r <~ call (blockDB_create t) ;;
         match r with
         | Err err => Ret (Err err)
         | Ok b =>
             let blocks := blocks ++ [b] in
             Ret (Ok (newSeriesSpan tr blocks
                        (series_id s) (series_shardID s)))
         end
   end)%prog.

(** The loop of [seriesSpan.Close], with the error accumulated so far. *)
Fixpoint Close_loop (err : option error) (blocks : list BlockDelegate)
  : prog (option error) :=
  match blocks with
  | [] => Ret err
  | delegate :: rest =>
      (r <~ call (delegate_Close delegate) ;;
       Close_loop (multierr.Append err r) rest)%prog
  end.

Definition Close (s : seriesSpan) : prog (option error) :=
  Close_loop None (span_blocks s).

(** [Close] of the [io.Closer] that [Get] returns: the delegate's own. *)
Definition Closer_Close (closer : BlockDelegate) : prog (option error) :=
  call (delegate_Close closer).

(** What the delegates of a span answer when they are closed in order,
    each one in the state that its predecessors left. *)
Fixpoint Close_answers {W : Type} (h : handler W)
  (blocks : list BlockDelegate) (w : W) : list (option error) :=
  match blocks with
  | [] => []
  | delegate :: rest =>
      let (r, w1) := h (delegate_Close delegate) w in
      r :: Close_answers h rest w1
  end.

(** ** An in-memory block database

    A block database that keeps its blocks in a list, for the scenarios:
    every block covers a closed interval of time, [mem_down] makes every
    method of the database fail, [mem_full] makes [create] fail, and the
    delegates listed in [mem_bad_close] fail when they are closed. *)
Record memBlock : Type := mkMemBlock {
  mb_delegate : BlockDelegate;
  mb_segID : N;
  mb_blockID : N;
  mb_from : Time;
  mb_to : Time
}.

Record memDB : Type := mkMemDB {
  mem_shard : N;
  mem_blocks : list memBlock;
  mem_down : option error;
  mem_full : option error;
  mem_bad_close : list BlockDelegate;
  mem_closed : list BlockDelegate
}.

Definition overlaps (r : TimeRange) (b : memBlock) : bool :=
  ((if IncludeStart r then Start r <=? mb_to b else Start r <? mb_to b) &&
   (if IncludeEnd r then mb_from b <=? End r else mb_from b <? End r))%Z%bool.

Definition holds (id : GlobalItemID) (b : memBlock) : bool :=
  ((segID id =? mb_segID b) && (blockID id =? mb_blockID b))%bool.

Definition mem_add (b : memBlock) (db : memDB) : memDB :=
  mkMemDB (mem_shard db) (mem_blocks db ++ [b]) (mem_down db) (mem_full db)
          (mem_bad_close db) (mem_closed db).

Definition mem_close (d : BlockDelegate) (db : memDB) : memDB :=
  mkMemDB (mem_shard db) (mem_blocks db) (mem_down db) (mem_full db)
          (mem_bad_close db) (mem_closed db ++ [d]).

Definition memDB_handler : handler memDB :=
  fun c =>
    match c as c0 return memDB -> answer c0 * memDB with
    | blockDB_shardID => fun db => (mem_shard db, db)
    | blockDB_block id => fun db =>
        match mem_down db with
        | Some e => (Err e, db)
        | None =>
            (Ok (option_map mb_delegate (find (holds id) (mem_blocks db))), db)
        end
    | blockDB_span r => fun db =>
        match mem_down db with
        | Some e => (Err e, db)
        | None =>
            (Ok (map mb_delegate (filter (overlaps r) (mem_blocks db))), db)
        end
    | blockDB_create t => fun db =>
        match mem_down db, mem_full db with
        | Some e, _ => (Err e, db)
        | None, Some e => (Err e, db)
        | None, None =>
            let n := N.of_nat (List.length (mem_blocks db)) + 1 in
            (Ok n, mem_add (mkMemBlock n 1 n t t) db)
        end
    | delegate_dataReader d => fun db => (dataReaderOf d, db)
    | delegate_Close d => fun db =>
        (if existsb (N.eqb d) (mem_bad_close db)
         then Some (Upstream d) else None,
         mem_close d db)
    end.

Definition db_empty : memDB := mkMemDB 7 [] None None [] [].

Definition db_full : memDB := mkMemDB 7 [] None (Some (Upstream 6)) [] [].

Definition db_one_block : memDB :=
  mkMemDB 7 [mkMemBlock 1 3 11 1000 2000] None None [] [].

Definition db_three_blocks : memDB :=
  mkMemDB 7 [mkMemBlock 1 3 11 1000 2000; mkMemBlock 2 3 12 2001 3000;
             mkMemBlock 3 3 13 3001 4000] None None [1; 3] [].

Definition db_down : memDB :=
  mkMemDB 7 [mkMemBlock 1 3 11 1000 2000] (Some (Upstream 5)) None [] [].

Definition series0 : series := mkSeries 0xDEADBEEF 7.

(** ** Values of the scenarios *)

Definition s1_id : GlobalItemID :=
  mkGlobalItemID 7 3 11 0xDEADBEEF 0x0102030405060708.

Definition s1_bytes : list byte :=
  [x00; x00; x00; x07; x00; x03; x00; x0b;
   x00; x00; x00; x00; xde; xad; xbe; xef;
   x01; x02; x03; x04; x05; x06; x07; x08].

Definition s1_next : GlobalItemID :=
  mkGlobalItemID 7 3 12 0 0.

Definition absent_id : GlobalItemID := mkGlobalItemID 7 9 9 0xDEADBEEF 1.
Definition present_id : GlobalItemID := mkGlobalItemID 7 3 11 0xDEADBEEF 42.

(** ** Calls that close a delegate *)

Definition is_Close (c : dbcall) : bool :=
  match c with delegate_Close _ => true | _ => false end.

(** ** Methods that call collaborators, in general

    The methods of the other packages call collaborators of their own; [C]
    is the type of the calls and [R] gives the type of each answer. *)
Inductive eff (C : Type) (R : C -> Type) (A : Type) : Type :=
| Pure (a : A)
| Do (c : C) (k : R c -> eff C R A).
Arguments Pure {C R A} a.
Arguments Do {C R A} c k.

Definition perform {C : Type} {R : C -> Type} (c : C) : eff C R (R c) :=
  Do c Pure.

Fixpoint eff_bind {C : Type} {R : C -> Type} {A B : Type}
  (p : eff C R A) (f : A -> eff C R B) : eff C R B :=
  match p with
  | Pure a => f a
  | Do c k => Do c (fun r => eff_bind (k r) f)
  end.

Declare Scope eff_scope.
Delimit Scope eff_scope with eff.
Notation "x <~ c ;; k" := (eff_bind c (fun x => k))
  (at level 61, c at next level, right associativity) : eff_scope.

(** Running against collaborators with state [W]: the value returned, the
    state afterwards and the calls made, oldest first. *)
Fixpoint exec {C : Type} {R : C -> Type} {W A : Type}
  (h : forall c : C, W -> R c * W) (p : eff C R A) (w : W)
  : A * W * list C :=
  match p with
  | Pure a => (a, w, [])
  | Do c k =>
      let (r, w1) := h c w in
      let '(a, w2, calls) := exec h (k r) w1 in
      (a, w2, c :: calls)
  end.

Definition value_of {A W C : Type} (x : A * W * list C) : A := fst (fst x).
Definition state_of {A W C : Type} (x : A * W * list C) : W := snd (fst x).
Definition trace_of {A W C : Type} (x : A * W * list C) : list C := snd x.

(** ** Optimizers of query plans (package [logical]) *)

Module logical.

(** An [Optimizer] is anything with [Apply(Plan) (Plan, error)]; the method
    may fail and may move the state [W] of whatever it works with. *)
Definition Optimizer (Plan W : Type) : Type := Plan -> W -> result Plan * W.

Definition Optimizers (Plan W : Type) : Type := list (Optimizer Plan W).

(** [Optimizers.Apply]: the optimizers in order, each on the plan of its
    predecessor, up to the first that fails. *)
Fixpoint Apply {Plan W : Type} (o : Optimizers Plan W) (plan : Plan) (w : W)
  : result Plan * W :=
  match o with
  | [] => (Ok plan, w)
  | opt :: rest =>
      match opt plan w with
      | (Err err, w1) => (Err err, w1)
      | (Ok plan1, w1) => Apply rest plan1 w1
      end
  end.

End logical.

(** Two optimizers over plans that are a bare cost, counting in the state
    how often an optimizer ran: one halves the cost, one refuses odd
    costs. *)
Definition opt_halve : logical.Optimizer N nat :=
  fun p n => (Ok (p / 2), S n).

Definition opt_even : logical.Optimizer N nat :=
  fun p n => if N.even p then (Ok p, S n) else (Err (Upstream p), S n).

(** ** The gRPC server of the liaison (package [grpc]) *)

Module grpc.

Local Open Scope string_scope.

Definition defaultRecvSize : Z := 1024 * 1024 * 10.

(** The sentinels of [server.go] and the wrapper of [errors.Wrap], which
    keeps its cause and adds a message. *)
Inductive srv_error : Type :=
| ErrServerCert
| ErrServerKey
| ErrNoAddr
| ErrQueryMsg
| Wrap (cause : error) (message : string).

(** What [credentials.NewServerTLSFromFile] loads, and a named logger. *)
Inductive TransportCredentials : Type :=
| credsFrom (certFile keyFile : string) (content : N).

Inductive Logger : Type :=
| GetLogger (name : string).

(** The fields of [Server] that [FlagSet], [Validate] and [PreRun] read or
    write; the gRPC server, the queue, the stop channel and the registry
    servers are touched by none of them.  The two discovery services of the
    stream and the measure service are named by [service]. *)
Record Server : Type := mkServer {
  addr : string;
  maxRecvMsgSize : Z;
  tls : bool;
  certFile : string;
  keyFile : string;
  log : option Logger;
  creds : option TransportCredentials
}.

Inductive service : Type :=
| streamSVC
| measureSVC.

(** The topics of package [event] that the server subscribes to, and the
    listeners that a discovery service offers. *)
Inductive Topic : Type :=
| StreamTopicShardEvent
| StreamTopicEntityEvent
| MeasureTopicShardEvent
| MeasureTopicEntityEvent.

Inductive Listener : Type :=
| shardRepo (svc : service)
| entityRepo (svc : service).

(** The calls on collaborators: the TLS loader, [SetLogger] of a discovery
    service and [Subscribe] of the service repository. *)
Inductive call : Type :=
| NewServerTLSFromFile (certFile keyFile : string)
| SetLogger (svc : service) (l : option Logger)
| Subscribe (topic : Topic) (listener : Listener).

Definition answer (c : call) : Type :=
  match c with
  | NewServerTLSFromFile _ _ => result TransportCredentials
  | SetLogger _ _ => unit
  | Subscribe _ _ => option error
  end.

Definition Name (s : Server) : string := "grpc".

(** A flag as [FlagSet] registers it: name, default and usage. *)
Inductive flag : Type :=
| IntVarP (name shorthand : string) (value : Z) (usage : string)
| BoolVarP (name shorthand : string) (value : bool) (usage : string)
| StringVarP (name shorthand : string) (value : string) (usage : string).

(** [FlagSet]: registering a flag stores its default through the pointer it
    was given, so the server holds the defaults when the flag set comes
    back. *)
Definition FlagSet (s : Server) : (string * list flag) * Server :=
  let fs :=
    [IntVarP "max-recv-msg-size" "" defaultRecvSize
       "the size of max receiving message";
     BoolVarP "tls" "" false "connection uses TLS if true, else plain TCP";
     StringVarP "cert-file" "" "" "the TLS cert file";
     StringVarP "key-file" "" "" "the TLS key file";
     StringVarP "addr" "" ":17912" "the address of banyand listens"] in
  (("grpc", fs),
   mkServer ":17912" defaultRecvSize false "" "" (log s) (creds s)).

Definition set_creds (c : TransportCredentials) (s : Server) : Server :=
  mkServer (addr s) (maxRecvMsgSize s) (tls s) (certFile s) (keyFile s)
           (log s) (Some c).

Definition set_log (l : Logger) (s : Server) : Server :=
  mkServer (addr s) (maxRecvMsgSize s) (tls s) (certFile s) (keyFile s)
           (Some l) (creds s).

(** [Validate] returns its error and the server as it leaves it. *)
Definition Validate (s : Server) : eff call answer (option srv_error * Server) :=
  if String.eqb (addr s) "" then Pure (Some ErrNoAddr, s)
  else if negb (tls s) then Pure (None, s)
  else if String.eqb (certFile s) "" then Pure (Some ErrServerCert, s)
  else if String.eqb (keyFile s) "" then Pure (Some ErrServerKey, s)
  else
    (r <~ perform (NewServerTLSFromFile (certFile s) (keyFile s)) ;;
     match r with
     | Err errTLS =>
         Pure (Some (Wrap errTLS "failed to load cert and key"), s)
     | Ok c => Pure (None, set_creds c s)
     end)%eff.

Record component : Type := mkComponent {
  shardEvent : Topic;
  entityEvent : Topic;
  discoverySVC : service
}.

Definition components : list component :=
  [mkComponent StreamTopicShardEvent StreamTopicEntityEvent streamSVC;
   mkComponent MeasureTopicShardEvent MeasureTopicEntityEvent measureSVC].

(** The loop of [PreRun] over the components that are left. *)
Fixpoint PreRun_loop (l : option Logger) (cs : list component)
  : eff call answer (option error) :=
  match cs with
  | [] => Pure None
  | c :: rest =>
      (_ <~ perform (SetLogger (discoverySVC c) l) ;;
       err <~ perform (Subscribe (shardEvent c) (shardRepo (discoverySVC c))) ;;
       match err with
       | Some e => Pure (Some e)
       | None =>
           err <~ perform (Subscribe (entityEvent c)
                             (entityRepo (discoverySVC c))) ;;
           match err with
           | Some e => Pure (Some e)
           | None => PreRun_loop l rest
           end
       end)%eff
  end.

Definition PreRun (s : Server) : eff call answer (option error * Server) :=
  let s := set_log (GetLogger "liaison-grpc") s in
  (err <~ PreRun_loop (log s) components ;;
   Pure (err, s))%eff.

End grpc.

(** Collaborators of the server for the scenarios: certificates load when
    the key file is [server.key], and the topics listed in the state
    refuse their subscription; the state also counts the calls. *)
Definition grpc_world : Type := (list grpc.Topic * nat)%type.

Definition topic_eqb (a b : grpc.Topic) : bool :=
  match a, b with
  | grpc.StreamTopicShardEvent, grpc.StreamTopicShardEvent
  | grpc.StreamTopicEntityEvent, grpc.StreamTopicEntityEvent
  | grpc.MeasureTopicShardEvent, grpc.MeasureTopicShardEvent
  | grpc.MeasureTopicEntityEvent, grpc.MeasureTopicEntityEvent => true
  | _, _ => false
  end.

Definition grpc_handler : forall c : grpc.call,
    grpc_world -> grpc.answer c * grpc_world :=
  fun c =>
    match c as c0 return grpc_world -> grpc.answer c0 * grpc_world with
    | grpc.NewServerTLSFromFile cert key => fun w =>
        (if String.eqb key "server.key"
         then Ok (grpc.credsFrom cert key 1)
         else Err (Upstream 2),
         (fst w, S (snd w)))
    | grpc.SetLogger _ _ => fun w => (tt, (fst w, S (snd w)))
    | grpc.Subscribe topic _ => fun w =>
        (if existsb (topic_eqb topic) (fst w)
         then Some (Upstream 9) else None,
         (fst w, S (snd w)))
    end.

Definition server_plain : grpc.Server :=
  grpc.mkServer ":17912" grpc.defaultRecvSize false "" "" None None.

Definition server_tls : grpc.Server :=
  grpc.mkServer ":17912" grpc.defaultRecvSize true "server.crt" "server.key"
    None None.

Definition server_tls_bad_key : grpc.Server :=
  grpc.mkServer ":17912" grpc.defaultRecvSize true "server.crt" "other.key"
    None None.

(** ** The channel source of the streaming flow (package [sources]) *)

Module sources.

Local Open Scope string_scope.











End sources.

(** ** The schema of a measure (package [measure]) *)

Module measure.

Local Open Scope string_scope.

(** The messages that [BuildSchema] reads; a [nil] message is [None] and
    the generated getters answer it with the zero value. *)
Record Metadata : Type := mkMetadata {
  md_group : string;
  md_name : string
}.

Record TagSpec : Type := mkTagSpec {
  tag_name : string;
  tag_type : N
}.

Record FieldSpec : Type := mkFieldSpec {
  field_name : string;
  field_type : N
}.

Record TagFamilySpec : Type := mkTagFamilySpec {
  family_name : string;
  family_tags : list TagSpec
}.

Record Measure : Type := mkMeasure {
  m_metadata : Metadata;
  m_entity_tag_names : list string;
  m_tag_families : list TagFamilySpec;
  m_fields : list FieldSpec
}.

Inductive Group : Type :=
| groupOf (name : string) (shards : N).

Inductive IndexRule : Type :=
| indexRuleOf (name : string).

Definition GetGroup (metadata : option Metadata) : string :=
  match metadata with
  | Some m => md_group m
  | None => ""
  end.

Definition GetEntity_GetTagNames (m : option Measure) : list string :=
  match m with
  | Some m => m_entity_tag_names m
  | None => []
  end.

Definition GetTagFamilies (m : option Measure) : list TagFamilySpec :=
  match m with
  | Some m => m_tag_families m
  | None => []
  end.

Definition GetFields (m : option Measure) : list FieldSpec :=
  match m with
  | Some m => m_fields m
  | None => []
  end.

(** The calls of [BuildSchema]: the three lookups in the metadata
    repository, and [registerTag] and [registerField] of the schema under
    construction. *)
Inductive call : Type :=
| GroupRegistry_GetGroup (group : string)
| MeasureRegistry_GetMeasure (metadata : option Metadata)
| IndexRules (metadata : option Metadata)
| registerTag (tagFamilyIdx tagIdx : nat) (spec : TagSpec)
| registerField (fieldIdx : nat) (spec : FieldSpec).

Definition answer (c : call) : Type :=
  match c with
  | GroupRegistry_GetGroup _ => result (option Group)
  | MeasureRegistry_GetMeasure _ => result (option Measure)
  | IndexRules _ => result (list IndexRule)
  | registerTag _ _ _ => unit
  | registerField _ _ => unit
  end.

(** The schema as [BuildSchema] fills it in before it registers tags and
    fields; the tag map and the field map start empty. *)
Record schema : Type := mkSchema {
  common_Group : option Group;
  common_IndexRules : list IndexRule;
  common_EntityList : list string;
  schema_measure : option Measure
}.

(** The inner loop over the tags of one family, from index [tagIdx] on. *)
Fixpoint registerTags (tagFamilyIdx tagIdx : nat) (tags : list TagSpec)
  : eff call answer unit :=
  match tags with
  | [] => Pure tt
  | spec :: rest =>
      (_ <~ perform (registerTag tagFamilyIdx tagIdx spec) ;;
       registerTags tagFamilyIdx (S tagIdx) rest)%eff
  end.

(** The outer loop over the tag families, from index [tagFamilyIdx] on. *)
Fixpoint registerTagFamilies (tagFamilyIdx : nat)
  (families : list TagFamilySpec) : eff call answer unit :=
  match families with
  | [] => Pure tt
  | tagFamily :: rest =>
      (_ <~ registerTags tagFamilyIdx 0 (family_tags tagFamily) ;;
       registerTagFamilies (S tagFamilyIdx) rest)%eff
  end.

(** The loop over the fields, from index [fieldIdx] on. *)
Fixpoint registerFields (fieldIdx : nat) (fields : list FieldSpec)
  : eff call answer unit :=
  match fields with
  | [] => Pure tt
  | spec :: rest =>
      (_ <~ perform (registerField fieldIdx spec) ;;
       registerFields (S fieldIdx) rest)%eff
  end.

Definition BuildSchema (metadata : option Metadata)
  : eff call answer (result schema) :=
  (r <~ perform (GroupRegistry_GetGroup (GetGroup metadata)) ;;
   match r with
   | Err err => Pure (Err err)
   | Ok group =>
       r <~ perform (MeasureRegistry_GetMeasure metadata) ;;
       match r with
       | Err err => Pure (Err err)
       | Ok measure =>
           r <~ perform (IndexRules metadata) ;;
           match r with
           | Err err => Pure (Err err)
           | Ok indexRules =>
               let ms := mkSchema group indexRules
                           (GetEntity_GetTagNames measure) measure in
               _ <~ registerTagFamilies 0 (GetTagFamilies measure) ;;
               _ <~ registerFields 0 (GetFields measure) ;;
               Pure (Ok ms)
           end
       end
   end)%eff.

End measure.

(** The registrations that a list of tag families and a list of fields
    call for, in the order of the lists. *)
Fixpoint tag_calls (tagFamilyIdx tagIdx : nat) (tags : list measure.TagSpec)
  : list measure.call :=
  match tags with
  | [] => []
  | spec :: rest =>
      measure.registerTag tagFamilyIdx tagIdx spec ::
      tag_calls tagFamilyIdx (S tagIdx) rest
  end.

Fixpoint family_calls (tagFamilyIdx : nat)
  (families : list measure.TagFamilySpec) : list measure.call :=
  match families with
  | [] => []
  | f :: rest =>
      tag_calls tagFamilyIdx 0 (measure.family_tags f) ++
      family_calls (S tagFamilyIdx) rest
  end.

Fixpoint field_calls (fieldIdx : nat) (fields : list measure.FieldSpec)
  : list measure.call :=
  match fields with
  | [] => []
  | spec :: rest =>
      measure.registerField fieldIdx spec :: field_calls (S fieldIdx) rest
  end.

(** A metadata repository for the scenarios: it knows one measure, in the
    group [sw_metric], and counts the calls it answers. *)
Definition cpm : measure.Measure :=
  measure.mkMeasure (measure.mkMetadata "sw_metric" "service_cpm")
    ["entity_id"%string]
    [measure.mkTagFamilySpec "default"
       [measure.mkTagSpec "id" 1; measure.mkTagSpec "entity_id" 1];
     measure.mkTagFamilySpec "extra" [measure.mkTagSpec "scope" 1]]
    [measure.mkFieldSpec "total" 2; measure.mkFieldSpec "value" 2].

Definition repo_handler : forall c : measure.call,
    nat -> measure.answer c * nat :=
  fun c =>
    match c as c0 return nat -> measure.answer c0 * nat with
    | measure.GroupRegistry_GetGroup g => fun n =>
        (if String.eqb g "sw_metric"
         then Ok (Some (measure.groupOf g 2)) else Err (Upstream 4), S n)
    | measure.MeasureRegistry_GetMeasure md => fun n =>
        (match md with
         | Some m =>
             if String.eqb (measure.md_name m) "service_cpm"
             then Ok (Some cpm) else Err (Upstream 5)
         | None => Err (Upstream 5)
         end, S n)
    | measure.IndexRules _ => fun n =>
        (Ok [measure.indexRuleOf "entity_id"], S n)
    | measure.registerTag _ _ _ => fun n => (tt, S n)
    | measure.registerField _ _ => fun n => (tt, S n)
    end.

(** * Properties *)

(** ** The codec on the literal values *)

Example s1_encode : Marshal s1_id = s1_bytes.
Proof. vm_compute. reflexivity. Qed.

Example s1_decode :
  UnMarshal (mkGlobalItemID 0 0 0 0 0) s1_bytes = Some (s1_id, None).
Proof. vm_compute. reflexivity. Qed.

Example s2_malformed :
  UnMarshal s1_id [xff; xff; xff] = Some (s1_id, Some ErrItemIDMalformed).
Proof. vm_compute. reflexivity. Qed.

(** ** Big-endian numerals: lemmas *)
Lemma to_N_lt (b : byte) : to_N b < 256.
Proof. pose proof (to_N_bounded b). lia. Qed.

Lemma to_N_byte_of (v : N) : to_N (convert.byte_of v) = v mod 256.
Proof.
  unfold convert.byte_of.
  assert (Hlt : v mod 256 < 256) by (apply N.mod_lt; lia).
  pose proof (to_of_N_option_map (v mod 256)) as H.
  destruct (of_N (v mod 256)) as [b|]; simpl in H.
  - destruct (v mod 256 <=? 255); congruence.
  - destruct (N.leb_spec (v mod 256) 255); [discriminate | lia].
Qed.

Lemma byte_of_to_N (b : byte) : convert.byte_of (to_N b) = b.
Proof.
  unfold convert.byte_of.
  rewrite N.mod_small by apply to_N_lt.
  now rewrite of_to_N.
Qed.

Lemma to_N_inj (x y : byte) : to_N x = to_N y -> x = y.
Proof.
  intros H. rewrite <- (byte_of_to_N x), <- (byte_of_to_N y). now rewrite H.
Qed.

Lemma lor_shiftl (x y n : N) :
  x < 2 ^ n -> N.lor x (N.shiftl y n) = y * 2 ^ n + x.
Proof.
  intros Hx.
  assert (Hland : N.land x (N.shiftl y n) = 0).
  { apply N.bits_inj. intros m. rewrite N.land_spec, N.bits_0.
    destruct (N.lt_ge_cases m n) as [Hm | Hm].
    - rewrite N.shiftl_spec_low by assumption. apply andb_false_r.
    - rewrite <- (N.mod_small x (2 ^ n)) by assumption.
      rewrite N.mod_pow2_bits_high by assumption. reflexivity. }
  rewrite <- N.lxor_lor, <- N.add_nocarry_lxor by assumption.
  rewrite N.shiftl_mul_pow2. lia.
Qed.

Lemma be_value_acc (ys : list byte) (acc : N) :
  fold_left (fun a b => a * 256 + to_N b) ys acc =
  acc * 256 ^ N.of_nat (List.length ys) + be_value ys.
Proof.
  revert acc.
  induction ys as [|y ys IH]; intros acc.
  - unfold be_value. simpl. lia.
  - change (be_value (y :: ys))
      with (fold_left (fun a b => a * 256 + to_N b) ys (0 * 256 + to_N y)).
    simpl fold_left. rewrite (IH (acc * 256 + to_N y)), (IH (to_N y)).
    simpl List.length. rewrite Nat2N.inj_succ, N.pow_succ_r'. lia.
Qed.

Lemma be_value_app (xs ys : list byte) :
  be_value (xs ++ ys) =
  be_value xs * 256 ^ N.of_nat (List.length ys) + be_value ys.
Proof.
  unfold be_value at 1. rewrite fold_left_app.
  apply be_value_acc.
Qed.

Lemma be_value_cons (x : byte) (xs : list byte) :
  be_value (x :: xs) = to_N x * 256 ^ N.of_nat (List.length xs) + be_value xs.
Proof.
  change (x :: xs) with ([x] ++ xs). rewrite be_value_app.
  unfold be_value at 1. simpl. reflexivity.
Qed.

Lemma be_value_lt (xs : list byte) :
  be_value xs < 256 ^ N.of_nat (List.length xs).
Proof.
  induction xs as [|x xs IH].
  - cbv. reflexivity.
  - rewrite be_value_cons. simpl List.length.
    rewrite Nat2N.inj_succ, N.pow_succ_r'.
    pose proof (to_N_lt x). nia.
Qed.

Lemma be_bytes_S (k : nat) (v : N) :
  be_bytes (S k) v = convert.byte_of (v / 256 ^ N.of_nat k) :: be_bytes k v.
Proof. reflexivity. Qed.

Lemma be_bytes_length (k : nat) (v : N) : List.length (be_bytes k v) = k.
Proof. induction k; simpl; congruence. Qed.

Lemma be_value_be_bytes (k : nat) (v : N) :
  be_value (be_bytes k v) = v mod 256 ^ N.of_nat k.
Proof.
  induction k as [|k IH].
  - simpl. rewrite N.mod_1_r. reflexivity.
  - rewrite be_bytes_S, be_value_cons, be_bytes_length, IH, to_N_byte_of.
    rewrite Nat2N.inj_succ, N.pow_succ_r'.
    set (p := 256 ^ N.of_nat k).
    assert (Hp : p <> 0) by (apply N.pow_nonzero; lia).
    rewrite (N.mul_comm 256 p), N.Div0.mod_mul_r. lia.
Qed.

Lemma byte_of_add_mul (q r : N) :
  convert.byte_of (q * 256 + r) = convert.byte_of r.
Proof.
  apply to_N_inj. rewrite !to_N_byte_of.
  rewrite N.add_comm, N.Div0.mod_add. reflexivity.
Qed.

Lemma be_bytes_add_mul (k : nat) (q r : N) :
  be_bytes k (q * 256 ^ N.of_nat k + r) = be_bytes k r.
Proof.
  revert q. induction k as [|k IH]; intros q.
  - reflexivity.
  - rewrite !be_bytes_S, Nat2N.inj_succ, N.pow_succ_r'.
    set (p := 256 ^ N.of_nat k).
    assert (Hp : p <> 0) by (apply N.pow_nonzero; lia).
    f_equal.
    + replace (q * (256 * p) + r) with (q * 256 * p + r) by lia.
      rewrite N.div_add_l by assumption. apply byte_of_add_mul.
    + replace (q * (256 * p) + r) with (q * 256 * p + r) by lia.
      apply IH.
Qed.

Lemma be_bytes_be_value (bs : list byte) :
  be_bytes (List.length bs) (be_value bs) = bs.
Proof.
  induction bs as [|b bs IH].
  - reflexivity.
  - simpl List.length. rewrite be_bytes_S, be_value_cons.
    set (p := 256 ^ N.of_nat (List.length bs)).
    assert (Hp : p <> 0) by (apply N.pow_nonzero; lia).
    pose proof (be_value_lt bs) as Hlt. fold p in Hlt.
    f_equal.
    + rewrite N.div_add_l by assumption.
      rewrite (N.div_small (be_value bs) p) by assumption.
      rewrite N.add_0_r. apply byte_of_to_N.
    + unfold p. rewrite be_bytes_add_mul. exact IH.
Qed.

(** ** The conversions are the big-endian numerals *)

Ltac byte_bounds :=
  repeat match goal with
  | b : byte |- _ =>
      lazymatch goal with
      | _ : to_N b < 256 |- _ => fail
      | _ => pose proof (to_N_lt b)
      end
  end.

Ltac lor_to_add :=
  repeat match goal with
  | |- context [N.lor ?x (N.shiftl ?y ?n)] =>
      rewrite (lor_shiftl x y n) by lia
  end.

Lemma Uint16ToBytes_be (u : N) : convert.Uint16ToBytes u = be_bytes 2 u.
Proof.
  unfold convert.Uint16ToBytes, be_bytes.
  rewrite !N.shiftr_div_pow2. simpl N.of_nat.
  rewrite N.pow_0_r, N.div_1_r. reflexivity.
Qed.

Lemma Uint32ToBytes_be (u : N) : convert.Uint32ToBytes u = be_bytes 4 u.
Proof.
  unfold convert.Uint32ToBytes, be_bytes.
  rewrite !N.shiftr_div_pow2. simpl N.of_nat.
  rewrite N.pow_0_r, N.div_1_r. reflexivity.
Qed.

Lemma Uint64ToBytes_be (u : N) : convert.Uint64ToBytes u = be_bytes 8 u.
Proof.
  unfold convert.Uint64ToBytes, be_bytes.
  rewrite !N.shiftr_div_pow2. simpl N.of_nat.
  rewrite N.pow_0_r, N.div_1_r. reflexivity.
Qed.

Lemma BytesToUint16_be (b0 b1 : byte) (rest : list byte) :
  convert.BytesToUint16 (b0 :: b1 :: rest) = Some (be_value [b0; b1]).
Proof.
  unfold convert.BytesToUint16, be_value. simpl fold_left.
  byte_bounds. lor_to_add. f_equal; lia.
Qed.

Lemma BytesToUint32_be (b0 b1 b2 b3 : byte) (rest : list byte) :
  convert.BytesToUint32 (b0 :: b1 :: b2 :: b3 :: rest) =
  Some (be_value [b0; b1; b2; b3]).
Proof.
  unfold convert.BytesToUint32, be_value. simpl fold_left.
  byte_bounds. lor_to_add. f_equal; lia.
Qed.

Lemma BytesToUint64_be (b0 b1 b2 b3 b4 b5 b6 b7 : byte) (rest : list byte) :
  convert.BytesToUint64 (b0 :: b1 :: b2 :: b3 :: b4 :: b5 :: b6 :: b7 :: rest) =
  Some (be_value [b0; b1; b2; b3; b4; b5; b6; b7]).
Proof.
  unfold convert.BytesToUint64, be_value. simpl fold_left.
  byte_bounds. lor_to_add. f_equal; lia.
Qed.

Lemma Marshal_be (i : GlobalItemID) :
  Marshal i =
  be_bytes 4 (ShardID i) ++ be_bytes 2 (segID i) ++ be_bytes 2 (blockID i) ++
  be_bytes 8 (SeriesID i) ++ be_bytes 8 (ID i).
Proof.
  unfold Marshal, bytes_Join.
  rewrite Uint32ToBytes_be, !Uint16ToBytes_be, !Uint64ToBytes_be.
  cbn [List.concat]. rewrite app_nil_r. reflexivity.
Qed.

Lemma Marshal_length (i : GlobalItemID) : List.length (Marshal i) = 24%nat.
Proof. reflexivity. Qed.

Lemma be_value_be_bytes_small (k : nat) (v : N) :
  v < 256 ^ N.of_nat k -> be_value (be_bytes k v) = v.
Proof. intros H. rewrite be_value_be_bytes. now apply N.mod_small. Qed.

(** What [UnMarshal] makes of 24 bytes, whatever they are. *)
Lemma UnMarshal_24
  (b0 b1 b2 b3 b4 b5 b6 b7 b8 b9 b10 b11 b12 b13 b14 b15 b16 b17 b18 b19 b20
   b21 b22 b23 : byte) (j : GlobalItemID) :
  UnMarshal j [b0; b1; b2; b3; b4; b5; b6; b7; b8; b9; b10; b11; b12; b13;
               b14; b15; b16; b17; b18; b19; b20; b21; b22; b23] =
  Some (mkGlobalItemID (be_value [b0; b1; b2; b3]) (be_value [b4; b5])
          (be_value [b6; b7])
          (be_value [b8; b9; b10; b11; b12; b13; b14; b15])
          (be_value [b16; b17; b18; b19; b20; b21; b22; b23]), None).
Proof.
  unfold UnMarshal, slice_from, slice.
  cbn [List.length Nat.add Nat.sub Nat.eqb Nat.leb negb andb firstn skipn].
  rewrite BytesToUint32_be, !BytesToUint16_be, !BytesToUint64_be.
  reflexivity.
Qed.

Lemma length_24_inv (data : list byte) :
  List.length data = 24%nat ->
  exists b0 b1 b2 b3 b4 b5 b6 b7 b8 b9 b10 b11 b12 b13 b14 b15 b16 b17 b18
         b19 b20 b21 b22 b23,
    data = [b0; b1; b2; b3; b4; b5; b6; b7; b8; b9; b10; b11; b12; b13;
            b14; b15; b16; b17; b18; b19; b20; b21; b22; b23].
Proof.
  intros H.
  do 24 (destruct data as [|? data]; [discriminate H|]).
  destruct data; [|discriminate H].
  repeat eexists.
Qed.

Lemma UnMarshal_of_24 (data : list byte) (j : GlobalItemID) :
  List.length data = 24%nat ->
  UnMarshal j data =
  Some (mkGlobalItemID (be_value (firstn 4 data))
          (be_value (firstn 2 (skipn 4 data)))
          (be_value (firstn 2 (skipn 6 data)))
          (be_value (firstn 8 (skipn 8 data)))
          (be_value (skipn 16 data)), None).
Proof.
  intros H. destruct (length_24_inv data H)
    as (b0 & b1 & b2 & b3 & b4 & b5 & b6 & b7 & b8 & b9 & b10 & b11 & b12 &
        b13 & b14 & b15 & b16 & b17 & b18 & b19 & b20 & b21 & b22 & b23 & ->).
  apply UnMarshal_24.
Qed.

Lemma firstn_app_exact {A} (xs ys : list A) (n : nat) :
  List.length xs = n -> firstn n (xs ++ ys) = xs.
Proof.
  intros <-. rewrite firstn_app, Nat.sub_diag, firstn_all. simpl.
  apply app_nil_r.
Qed.

Lemma skipn_app_exact {A} (xs ys : list A) (n : nat) :
  List.length xs = n -> skipn n (xs ++ ys) = ys.
Proof.
  intros <-. rewrite skipn_app, Nat.sub_diag, skipn_all. reflexivity.
Qed.

(** ** Order *)

Lemma compare_radix (p q1 r1 q2 r2 : N) :
  r1 < p -> r2 < p ->
  N.compare (q1 * p + r1) (q2 * p + r2) =
  match N.compare q1 q2 with
  | Eq => N.compare r1 r2
  | c => c
  end.
Proof.
  intros H1 H2. destruct (N.compare_spec q1 q2) as [-> | Hlt | Hgt].
  - destruct (N.compare_spec r1 r2) as [-> | Hlt | Hgt].
    + apply N.compare_refl.
    + apply N.compare_lt_iff. lia.
    + apply N.compare_gt_iff. lia.
  - apply N.compare_lt_iff. nia.
  - apply N.compare_gt_iff. nia.
Qed.

Lemma bytes_Compare_be_value (xs ys : list byte) :
  List.length xs = List.length ys ->
  bytes_Compare xs ys = N.compare (be_value xs) (be_value ys).
Proof.
  revert ys. induction xs as [|x xs IH]; intros [|y ys] Hlen;
    try discriminate Hlen.
  - reflexivity.
  - injection Hlen as Hlen. rewrite !be_value_cons, Hlen.
    rewrite compare_radix by (apply be_value_lt || (rewrite <- Hlen; apply be_value_lt)).
    simpl bytes_Compare. rewrite (IH ys Hlen). reflexivity.
Qed.

Lemma bytes_Compare_app (x1 x2 y1 y2 : list byte) :
  List.length x1 = List.length x2 ->
  bytes_Compare (x1 ++ y1) (x2 ++ y2) =
  match bytes_Compare x1 x2 with
  | Eq => bytes_Compare y1 y2
  | c => c
  end.
Proof.
  revert x2. induction x1 as [|a x1 IH]; intros [|b x2] Hlen;
    try discriminate Hlen.
  - reflexivity.
  - injection Hlen as Hlen. simpl.
    destruct (to_N a ?= to_N b); auto.
Qed.

Lemma bytes_Compare_be_bytes (k : nat) (u v : N) :
  u < 256 ^ N.of_nat k -> v < 256 ^ N.of_nat k ->
  bytes_Compare (be_bytes k u) (be_bytes k v) = N.compare u v.
Proof.
  intros Hu Hv.
  rewrite bytes_Compare_be_value by now rewrite !be_bytes_length.
  now rewrite !be_value_be_bytes_small.
Qed.

(** ** The codec of global item ids: theorems *)

Lemma wf_bounds (i : GlobalItemID) :
  wf_GlobalItemID i ->
  ShardID i < 256 ^ N.of_nat 4 /\ segID i < 256 ^ N.of_nat 2 /\
  blockID i < 256 ^ N.of_nat 2 /\ SeriesID i < 256 ^ N.of_nat 8 /\
  ID i < 256 ^ N.of_nat 8.
Proof. intros H. exact H. Qed.

Lemma Marshal_fields (i : GlobalItemID) :
  wf_GlobalItemID i ->
  be_value (firstn 4 (Marshal i)) = ShardID i /\
  be_value (firstn 2 (skipn 4 (Marshal i))) = segID i /\
  be_value (firstn 2 (skipn 6 (Marshal i))) = blockID i /\
  be_value (firstn 8 (skipn 8 (Marshal i))) = SeriesID i /\
  be_value (skipn 16 (Marshal i)) = ID i.
Proof.
  intros H. apply wf_bounds in H. destruct H as (H1 & H2 & H3 & H4 & H5).
  change (firstn 4 (Marshal i)) with (convert.Uint32ToBytes (ShardID i)).
  change (firstn 2 (skipn 4 (Marshal i)))
    with (convert.Uint16ToBytes (segID i)).
  change (firstn 2 (skipn 6 (Marshal i)))
    with (convert.Uint16ToBytes (blockID i)).
  change (firstn 8 (skipn 8 (Marshal i)))
    with (convert.Uint64ToBytes (SeriesID i)).
  change (skipn 16 (Marshal i)) with (convert.Uint64ToBytes (ID i)).
  rewrite Uint32ToBytes_be, !Uint16ToBytes_be, !Uint64ToBytes_be.
  rewrite !be_value_be_bytes_small by assumption.
  repeat split.
Qed.

(** C1.  Every global item id marshals to exactly 24 bytes, laid out as
    4 bytes of shard, 2 of segment, 2 of block, 8 of series and 8 of item,
    each the big-endian numeral of its field; unmarshalling those bytes, into
    any receiver, returns no error and leaves the receiver equal to the id. *)
Theorem Marshal_UnMarshal_roundtrip (id receiver : GlobalItemID) :
  wf_GlobalItemID id ->
  List.length (Marshal id) = 24%nat /\
  (be_value (firstn 4 (Marshal id)) = ShardID id /\
   be_value (firstn 2 (skipn 4 (Marshal id))) = segID id /\
   be_value (firstn 2 (skipn 6 (Marshal id))) = blockID id /\
   be_value (firstn 8 (skipn 8 (Marshal id))) = SeriesID id /\
   be_value (skipn 16 (Marshal id)) = ID id) /\
  UnMarshal receiver (Marshal id) = Some (id, None).
Proof.
  intros Hwf. pose proof (Marshal_fields id Hwf) as Hf.
  split; [apply Marshal_length|]. split; [exact Hf|].
  rewrite (UnMarshal_of_24 _ _ (Marshal_length id)).
  destruct Hf as (-> & -> & -> & -> & ->).
  destruct id; reflexivity.
Qed.

Lemma Marshal_UnMarshal_roundtrip_s1 :
  wf_GlobalItemID s1_id /\
  List.length (Marshal s1_id) = 24%nat /\
  UnMarshal (mkGlobalItemID 1 2 3 4 5) (Marshal s1_id) = Some (s1_id, None).
Proof.
  assert (Hwf : wf_GlobalItemID s1_id) by (unfold wf_GlobalItemID; simpl; lia).
  split; [exact Hwf|].
  destruct (Marshal_UnMarshal_roundtrip s1_id (mkGlobalItemID 1 2 3 4 5) Hwf)
    as (Hlen & _ & Hrt).
  split; assumption.
Defined.

(** C2.  Comparing the marshalled forms of two global item ids byte by byte
    gives the comparison of their tuples
    [(ShardID, segID, blockID, SeriesID, ID)] in that order. *)
Theorem Marshal_order (a b : GlobalItemID) :
  wf_GlobalItemID a -> wf_GlobalItemID b ->
  bytes_Compare (Marshal a) (Marshal b) = tupleCompare a b.
Proof.
  intros Ha Hb.
  apply wf_bounds in Ha. destruct Ha as (Ha1 & Ha2 & Ha3 & Ha4 & Ha5).
  apply wf_bounds in Hb. destruct Hb as (Hb1 & Hb2 & Hb3 & Hb4 & Hb5).
  rewrite !Marshal_be.
  repeat rewrite bytes_Compare_app by (rewrite !be_bytes_length; reflexivity).
  rewrite !bytes_Compare_be_bytes by assumption.
  reflexivity.
Qed.

Lemma Marshal_order_s1 :
  wf_GlobalItemID s1_id /\ wf_GlobalItemID s1_next /\
  bytes_Compare (Marshal s1_id) (Marshal s1_next) = Lt /\
  tupleCompare s1_id s1_next = Lt.
Proof.
  assert (Ha : wf_GlobalItemID s1_id) by (unfold wf_GlobalItemID; simpl; lia).
  assert (Hb : wf_GlobalItemID s1_next) by (unfold wf_GlobalItemID; simpl; lia).
  split; [exact Ha|]. split; [exact Hb|].
  rewrite (Marshal_order s1_id s1_next Ha Hb).
  split; reflexivity.
Defined.

(** C6.  Unmarshalling a byte string whose length is not 24 returns
    [ErrItemIDMalformed]. *)
Theorem UnMarshal_malformed (i : GlobalItemID) (data : list byte) :
  List.length data <> 24%nat ->
  option_map snd (UnMarshal i data) = Some (Some ErrItemIDMalformed).
Proof.
  intros Hlen. unfold UnMarshal.
  change (4 + 2 + 2 + 8 + 8)%nat with 24%nat.
  destruct (Nat.eqb_spec (List.length data) 24) as [Heq | _].
  - contradiction.
  - reflexivity.
Qed.

Lemma UnMarshal_malformed_s2 :
  List.length [xff; xff; xff] <> 24%nat /\
  option_map snd (UnMarshal s1_id [xff; xff; xff]) =
  Some (Some ErrItemIDMalformed).
Proof.
  assert (H : List.length [xff; xff; xff] <> 24%nat) by (simpl; lia).
  split; [exact H|].
  exact (UnMarshal_malformed s1_id [xff; xff; xff] H).
Defined.

(** C9.  A failed decode is atomic: on a byte string whose length is not 24
    [UnMarshal] returns [ErrItemIDMalformed] and the receiver keeps every
    field it had. *)
Theorem UnMarshal_malformed_keeps_receiver
  (i : GlobalItemID) (data : list byte) :
  List.length data <> 24%nat ->
  UnMarshal i data = Some (i, Some ErrItemIDMalformed).
Proof.
  intros Hlen. unfold UnMarshal.
  change (4 + 2 + 2 + 8 + 8)%nat with 24%nat.
  destruct (Nat.eqb_spec (List.length data) 24) as [Heq | _].
  - contradiction.
  - reflexivity.
Qed.

Lemma UnMarshal_malformed_keeps_receiver_long :
  List.length (Marshal s1_id ++ [x00]) <> 24%nat /\
  UnMarshal s1_next (Marshal s1_id ++ [x00]) =
  Some (s1_next, Some ErrItemIDMalformed).
Proof.
  assert (H : List.length (Marshal s1_id ++ [x00]) <> 24%nat)
    by (simpl; lia).
  split; [exact H|].
  exact (UnMarshal_malformed_keeps_receiver s1_next _ H).
Defined.

Ltac rewrite_be_bytes l :=
  let H := fresh in
  pose proof (be_bytes_be_value l) as H;
  cbn [List.length] in H; rewrite H; clear H.

(** C10.  On every byte string of length 24 [UnMarshal] returns no error,
    whatever the bytes are and whatever the receiver held, and marshalling
    the decoded id gives the same bytes back. *)
Theorem UnMarshal_Marshal_inverse (data : list byte) (receiver : GlobalItemID) :
  List.length data = 24%nat ->
  exists id,
    UnMarshal receiver data = Some (id, None) /\
    wf_GlobalItemID id /\
    Marshal id = data.
Proof.
  intros Hlen. destruct (length_24_inv data Hlen)
    as (b0 & b1 & b2 & b3 & b4 & b5 & b6 & b7 & b8 & b9 & b10 & b11 & b12 &
        b13 & b14 & b15 & b16 & b17 & b18 & b19 & b20 & b21 & b22 & b23 & ->).
  eexists. split; [apply UnMarshal_24|]. split.
  - unfold wf_GlobalItemID; cbn [ShardID segID blockID SeriesID ID].
    repeat split;
      match goal with
      | |- be_value ?l < _ => exact (be_value_lt l)
      end.
  - rewrite Marshal_be; cbn [ShardID segID blockID SeriesID ID].
    rewrite_be_bytes [b0; b1; b2; b3].
    rewrite_be_bytes [b4; b5].
    rewrite_be_bytes [b6; b7].
    rewrite_be_bytes [b8; b9; b10; b11; b12; b13; b14; b15].
    rewrite_be_bytes [b16; b17; b18; b19; b20; b21; b22; b23].
    reflexivity.
Qed.

Lemma UnMarshal_Marshal_inverse_ff :
  List.length (repeat xff 24) = 24%nat /\
  exists id,
    UnMarshal s1_id (repeat xff 24) = Some (id, None) /\
    wf_GlobalItemID id /\
    Marshal id = repeat xff 24.
Proof.
  assert (H : List.length (repeat xff 24) = 24%nat) by reflexivity.
  split; [exact H|].
  exact (UnMarshal_Marshal_inverse (repeat xff 24) s1_id H).
Defined.

(** ** Running a method *)

Lemma run_call_bind {W A : Type} (h : handler W) (c : dbcall)
  (k : answer c -> prog A) (w : W) :
  run h (bind (call c) k) w =
  (returned (run h (k (fst (h c w))) (snd (h c w))),
   state_after (run h (k (fst (h c w))) (snd (h c w))),
   c :: calls_of (run h (k (fst (h c w))) (snd (h c w)))).
Proof.
  unfold returned, state_after, calls_of. simpl.
  destruct (h c w) as [r w1]. simpl.
  destruct (run h (k r) w1) as [[a w2] calls]. reflexivity.
Qed.

Lemma run_call {W : Type} (h : handler W) (c : dbcall) (w : W) :
  run h (call c) w = (fst (h c w), snd (h c w), [c]).
Proof. simpl. destruct (h c w). reflexivity. Qed.

(** ** Scenarios *)

Example s3_empty_span :
  returned (run memDB_handler
              (Span series0 (NewInclusiveTimeRange 1000 2000)) db_empty) =
  Err ErrEmptySeriesSpan.
Proof. reflexivity. Qed.

Example s4_create_existing :
  run memDB_handler (Create series0 1500) db_one_block =
  (Ok (mkSeriesSpan [1] 0xDEADBEEF 7 (mkTimeRange 1500 1500 true true)),
   db_one_block,
   [blockDB_span (mkTimeRange 1500 1500 true true)]).
Proof. reflexivity. Qed.

Example s5_create_new :
  let out := run memDB_handler (Create series0 3000) db_one_block in
  returned out =
    Ok (mkSeriesSpan [2] 0xDEADBEEF 7 (mkTimeRange 3000 3000 true true)) /\
  calls_of out =
    [blockDB_span (mkTimeRange 3000 3000 true true); blockDB_create 3000].
Proof. split; reflexivity. Qed.

Example s5_create_refused :
  run memDB_handler (Create series0 3000) db_full =
  (Err (Upstream 6), db_full,
   [blockDB_span (mkTimeRange 3000 3000 true true); blockDB_create 3000]).
Proof. reflexivity. Qed.

Example s6_get_absent :
  returned (run memDB_handler
              (Get series0 (mkGlobalItemID 7 9 9 0xDEADBEEF 1)) db_one_block) =
  Err (WithMessagef ErrBlockAbsent "id: %v"
         [ArgGlobalItemID (mkGlobalItemID 7 9 9 0xDEADBEEF 1)]).
Proof. reflexivity. Qed.

Example s7_close_aggregation :
  let out := run memDB_handler
               (Close (mkSeriesSpan [1; 2; 3] 0xDEADBEEF 7
                         (mkTimeRange 1000 4000 true true)))
               db_three_blocks in
  returned out = Some (multiError [Upstream 1; Upstream 3]) /\
  mem_closed (state_after out) = [1; 2; 3].
Proof. split; reflexivity. Qed.

(** Case analyses on what a collaborator answered end in equations between
    constructors. *)
Ltac settle_cases :=
  repeat split; intros;
  repeat match goal with
  | H : Ok _ = Ok _ |- _ => injection H as H; subst
  | H : Err _ = Err _ |- _ => injection H as H; subst
  end;
  try discriminate; try contradiction; try reflexivity; try congruence.

(** ** Series.Span *)

(** C3.  [Span] never returns a span without delegates; when the block
    database's [span] answers an empty list without error, [Span] fails with
    [ErrEmptySeriesSpan]; when it answers a non-empty list, [Span] succeeds
    and the span holds exactly that list, in the same order. *)
Theorem Span_empty_or_delegates {W : Type} (h : handler W) (s : series)
  (r : TimeRange) (w : W) :
  (forall sp, returned (run h (Span s r) w) = Ok sp -> span_blocks sp <> []) /\
  (fst (h (blockDB_span r) w) = Ok [] ->
   returned (run h (Span s r) w) = Err ErrEmptySeriesSpan) /\
  (forall blocks,
     fst (h (blockDB_span r) w) = Ok blocks -> blocks <> [] ->
     exists sp, returned (run h (Span s r) w) = Ok sp /\
                span_blocks sp = blocks /\
                calls_of (run h (Span s r) w) = [blockDB_span r]).
Proof.
  unfold Span. rewrite run_call_bind.
  destruct (fst (h (blockDB_span r) w)) as [blocks | e].
  - destruct blocks as [|b bs]; simpl.
    + repeat split; try discriminate.
      intros blocks Hb Hne. injection Hb as <-. contradiction.
    + repeat split; try discriminate.
      * intros sp Hsp. injection Hsp as <-. discriminate.
      * intros blocks Hb _. injection Hb as <-.
        eexists. repeat split.
  - simpl. repeat split; discriminate.
Qed.

Lemma Span_empty_or_delegates_mem :
  let r := NewInclusiveTimeRange 1000 2000 in
  let r' := NewInclusiveTimeRange 1500 2500 in
  (fst (memDB_handler (blockDB_span r) db_empty) = Ok [] /\
   returned (run memDB_handler (Span series0 r) db_empty) =
   Err ErrEmptySeriesSpan) /\
  (fst (memDB_handler (blockDB_span r') db_three_blocks) = Ok [1; 2]%N /\
   [1; 2]%N <> [] /\
   exists sp, returned (run memDB_handler (Span series0 r') db_three_blocks) =
              Ok sp /\
              span_blocks sp = [1; 2]%N /\
              calls_of (run memDB_handler (Span series0 r') db_three_blocks) =
              [blockDB_span r']).
Proof.
  intros r r'. split.
  - assert (H : fst (memDB_handler (blockDB_span r) db_empty) = Ok [])
      by reflexivity.
    split; [exact H|].
    exact (proj1 (proj2 (Span_empty_or_delegates
                           memDB_handler series0 r db_empty)) H).
  - assert (H : fst (memDB_handler (blockDB_span r') db_three_blocks) =
                Ok [1; 2]%N) by reflexivity.
    assert (Hne : [1; 2]%N <> []) by discriminate.
    split; [exact H|]. split; [exact Hne|].
    exact (proj2 (proj2 (Span_empty_or_delegates
                           memDB_handler series0 r' db_three_blocks))
             [1; 2]%N H Hne).
Defined.

(** ** Series.Create *)

(** C4.  [Create] probes [span] of the block database over [[t, t]]
    inclusive.  When the probe answers a non-empty list of delegates,
    [Create] wraps exactly that list and never calls [create].  When it
    answers the empty list, [Create] calls [create t] exactly once and the
    span it returns holds the one delegate that [create] made.  In both
    cases the span has the range [[t, t]], both ends included.  An error of
    the probe or of [create] is returned as it is. *)
Theorem Create_probe_then_create {W : Type} (h : handler W) (s : series)
  (t : Time) (w : W) :
  let tr := NewInclusiveTimeRange t t in
  let out := run h (Create s t) w in
  let w1 := snd (h (blockDB_span tr) w) in
  (forall e, fst (h (blockDB_span tr) w) = Err e ->
     returned out = Err e /\ calls_of out = [blockDB_span tr]) /\
  (forall blocks, fst (h (blockDB_span tr) w) = Ok blocks -> blocks <> [] ->
     returned out =
       Ok (mkSeriesSpan blocks (series_id s) (series_shardID s) tr) /\
     calls_of out = [blockDB_span tr] /\
     create_calls (calls_of out) = []) /\
  (fst (h (blockDB_span tr) w) = Ok [] ->
     calls_of out = [blockDB_span tr; blockDB_create t] /\
     create_calls (calls_of out) = [blockDB_create t] /\
     (forall e, fst (h (blockDB_create t) w1) = Err e ->
        returned out = Err e) /\
     (forall b, fst (h (blockDB_create t) w1) = Ok b ->
        returned out =
          Ok (mkSeriesSpan [b] (series_id s) (series_shardID s) tr))) /\
  (forall sp, returned out = Ok sp ->
     span_timeRange sp = mkTimeRange t t true true).
Proof.
  intros tr out w1. subst out w1. unfold Create. fold tr.
  rewrite run_call_bind.
  destruct (fst (h (blockDB_span tr) w)) as [[|b bs] | e].
  - cbn [List.length Nat.ltb Nat.leb]. rewrite run_call_bind.
    set (w1 := snd (h (blockDB_span tr) w)).
    destruct (fst (h (blockDB_create t) w1)) as [b | e];
      cbn [run returned state_after calls_of fst snd app create_calls filter
           is_create];
      settle_cases.
  - cbn [List.length Nat.ltb Nat.leb run returned state_after calls_of fst snd
         create_calls filter is_create].
    settle_cases.
  - cbn [run returned state_after calls_of fst snd create_calls filter
         is_create].
    settle_cases.
Qed.

Lemma Create_probe_then_create_mem :
  (fst (memDB_handler (blockDB_span (NewInclusiveTimeRange 1500 1500))
          db_one_block) = Ok [1]%N /\
   [1]%N <> [] /\
   returned (run memDB_handler (Create series0 1500) db_one_block) =
     Ok (mkSeriesSpan [1]%N 0xDEADBEEF 7 (NewInclusiveTimeRange 1500 1500)) /\
   create_calls (calls_of (run memDB_handler (Create series0 1500)
                             db_one_block)) = []) /\
  (fst (memDB_handler (blockDB_span (NewInclusiveTimeRange 3000 3000))
          db_one_block) = Ok [] /\
   fst (memDB_handler (blockDB_create 3000) db_one_block) = Ok 2%N /\
   create_calls (calls_of (run memDB_handler (Create series0 3000)
                             db_one_block)) = [blockDB_create 3000] /\
   returned (run memDB_handler (Create series0 3000) db_one_block) =
     Ok (mkSeriesSpan [2]%N 0xDEADBEEF 7 (NewInclusiveTimeRange 3000 3000))) /\
  (fst (memDB_handler (blockDB_span (NewInclusiveTimeRange 3000 3000))
          db_down) = Err (Upstream 5) /\
   returned (run memDB_handler (Create series0 3000) db_down) =
     Err (Upstream 5) /\
   calls_of (run memDB_handler (Create series0 3000) db_down) =
     [blockDB_span (NewInclusiveTimeRange 3000 3000)]).
Proof.
  split; [|split].
  - assert (H : fst (memDB_handler
                       (blockDB_span (NewInclusiveTimeRange 1500 1500))
                       db_one_block) = Ok [1]%N) by reflexivity.
    assert (Hne : [1]%N <> []) by discriminate.
    destruct (Create_probe_then_create memDB_handler series0 1500
                db_one_block) as (_ & Hwrap & _).
    destruct (Hwrap [1]%N H Hne) as (Hret & _ & Hnone).
    exact (conj H (conj Hne (conj Hret Hnone))).
  - assert (H : fst (memDB_handler
                       (blockDB_span (NewInclusiveTimeRange 3000 3000))
                       db_one_block) = Ok []) by reflexivity.
    assert (Hc : fst (memDB_handler (blockDB_create 3000) db_one_block) =
                 Ok 2%N) by reflexivity.
    destruct (Create_probe_then_create memDB_handler series0 3000
                db_one_block) as (_ & _ & Hnew & _).
    destruct (Hnew H) as (_ & Hone & _ & Hok).
    exact (conj H (conj Hc (conj Hone (Hok 2%N Hc)))).
  - assert (H : fst (memDB_handler
                       (blockDB_span (NewInclusiveTimeRange 3000 3000))
                       db_down) = Err (Upstream 5)) by reflexivity.
    destruct (Create_probe_then_create memDB_handler series0 3000 db_down)
      as (Herr & _).
    destruct (Herr (Upstream 5) H) as (Hret & Hcalls).
    exact (conj H (conj Hret Hcalls)).
Defined.

(** ** SeriesSpan.Close *)

Lemma Errors_Append (left right : option error) :
  multierr.Errors (multierr.Append left right) =
  multierr.Errors left ++ multierr.Errors right.
Proof.
  destruct left as [l|], right as [r|]; simpl; try reflexivity.
  now rewrite app_nil_r.
Qed.

Lemma Append_None (left right : option error) :
  multierr.Append left right = None <-> left = None /\ right = None.
Proof.
  destruct left, right; simpl; split; intros H;
    try discriminate; try tauto; destruct H; discriminate.
Qed.

Lemma Close_answers_length {W : Type} (h : handler W)
  (blocks : list BlockDelegate) (w : W) :
  List.length (Close_answers h blocks w) = List.length blocks.
Proof.
  revert w. induction blocks as [|d rest IH]; intros w.
  - reflexivity.
  - simpl. destruct (h (delegate_Close d) w). simpl. now rewrite IH.
Qed.

Lemma Close_loop_run {W : Type} (h : handler W)
  (blocks : list BlockDelegate) (err : option error) (w : W) :
  calls_of (run h (Close_loop err blocks) w) = map delegate_Close blocks /\
  multierr.Errors (returned (run h (Close_loop err blocks) w)) =
    multierr.Errors err ++ flat_map multierr.Errors (Close_answers h blocks w) /\
  (returned (run h (Close_loop err blocks) w) = None <->
   err = None /\ Forall (eq None) (Close_answers h blocks w)).
Proof.
  revert err w. induction blocks as [|d rest IH]; intros err w.
  - simpl. rewrite app_nil_r. repeat split; auto. tauto.
  - cbn [Close_loop Close_answers]. rewrite run_call_bind.
    destruct (h (delegate_Close d) w) as [r w1].
    cbn [fst snd returned state_after calls_of].
    destruct (IH (multierr.Append err r) w1) as (Hcalls & Herrs & Hnone).
    unfold returned, calls_of in *.
    split; [|split].
    + simpl. now rewrite Hcalls.
    + rewrite Herrs, Errors_Append. simpl. now rewrite app_assoc.
    + rewrite Hnone, Append_None. split.
      * intros ((-> & ->) & Hall). split; [reflexivity|]. now constructor.
      * intros (-> & Hall). inversion Hall as [|x l Hx Hrest]; subst.
        repeat split; assumption.
Qed.

(** C5.  Closing a span closes each of its delegates exactly once, in the
    order of the span and whatever the earlier ones answered; the error that
    comes back aggregates every failure the delegates reported, in that
    order, and is [nil] only when none of them failed. *)
Theorem Close_fan_in {W : Type} (h : handler W) (sp : seriesSpan) (w : W) :
  let out := run h (Close sp) w in
  let answers := Close_answers h (span_blocks sp) w in
  calls_of out = map delegate_Close (span_blocks sp) /\
  List.length (calls_of out) = List.length (span_blocks sp) /\
  List.length answers = List.length (span_blocks sp) /\
  multierr.Errors (returned out) = flat_map multierr.Errors answers /\
  (forall e, In (Some e) answers ->
     incl (multierr.Errors (Some e)) (multierr.Errors (returned out))) /\
  (returned out = None <-> Forall (eq None) answers).
Proof.
  intros out answers. subst out answers. unfold Close.
  destruct (Close_loop_run h (span_blocks sp) None w)
    as (Hcalls & Herrs & Hnone).
  split; [exact Hcalls|]. split; [now rewrite Hcalls, length_map|].
  split; [apply Close_answers_length|].
  split; [exact Herrs|]. split.
  - intros e Hin x Hx. rewrite Herrs. simpl.
    apply in_flat_map. exists (Some e). split; assumption.
  - rewrite Hnone. tauto.
Qed.

Lemma Close_fan_in_mem :
  let sp := mkSeriesSpan [1; 2; 3]%N 0xDEADBEEF 7
              (mkTimeRange 1000 4000 true true) in
  let out := run memDB_handler (Close sp) db_three_blocks in
  In (Some (Upstream 3)) (Close_answers memDB_handler [1; 2; 3]%N
                            db_three_blocks) /\
  calls_of out = [delegate_Close 1; delegate_Close 2; delegate_Close 3] /\
  incl [Upstream 3] (multierr.Errors (returned out)).
Proof.
  intros sp out.
  assert (H : In (Some (Upstream 3))
                (Close_answers memDB_handler [1; 2; 3]%N db_three_blocks))
    by (simpl; tauto).
  destruct (Close_fan_in memDB_handler sp db_three_blocks)
    as (Hcalls & _ & _ & _ & Hin & _).
  exact (conj H (conj Hcalls (Hin (Upstream 3) H))).
Defined.

(** ** Series.Get *)

(** C7.  An error of the block database's [block] comes back from [Get]
    unchanged; a [nil] block without error makes [Get] fail with
    [ErrBlockAbsent] wrapped in a message that carries the id asked for. *)
Theorem Get_failures {W : Type} (h : handler W) (s : series)
  (g : GlobalItemID) (w : W) :
  (forall e, fst (h (blockDB_block g) w) = Err e ->
     returned (run h (Get s g) w) = Err e) /\
  (fst (h (blockDB_block g) w) = Ok None ->
     returned (run h (Get s g) w) =
       Err (WithMessagef ErrBlockAbsent "id: %v" [ArgGlobalItemID g]) /\
     exists e, returned (run h (Get s g) w) = Err e /\
               Cause e = ErrBlockAbsent).
Proof.
  unfold Get. rewrite run_call_bind.
  destruct (fst (h (blockDB_block g) w)) as [[b|] | e];
    cbn [run returned fst]; settle_cases.
  eexists. split; reflexivity.
Qed.

Lemma Get_failures_mem :
  (fst (memDB_handler (blockDB_block absent_id) db_down) = Err (Upstream 5) /\
   returned (run memDB_handler (Get series0 absent_id) db_down) =
     Err (Upstream 5)) /\
  (fst (memDB_handler (blockDB_block absent_id) db_one_block) = Ok None /\
   returned (run memDB_handler (Get series0 absent_id) db_one_block) =
     Err (WithMessagef ErrBlockAbsent "id: %v" [ArgGlobalItemID absent_id])).
Proof.
  split.
  - assert (H : fst (memDB_handler (blockDB_block absent_id) db_down) =
                Err (Upstream 5)) by reflexivity.
    split; [exact H|].
    exact (proj1 (Get_failures memDB_handler series0 absent_id db_down)
             (Upstream 5) H).
  - assert (H : fst (memDB_handler (blockDB_block absent_id) db_one_block) =
                Ok None) by reflexivity.
    split; [exact H|].
    exact (proj1 (proj2 (Get_failures memDB_handler series0 absent_id
                           db_one_block) H)).
Defined.

(** C8.  When the block database resolves a delegate for the id, [Get]
    succeeds: the item carries the series' own id and the item field of the
    id asked for, it holds the reader that the delegate's [dataReader]
    handed out, and the closer that comes with it is that delegate, still
    open: [Get] has called [block] and then [dataReader] of the delegate,
    nothing else; closing the closer is one call of the delegate's
    [Close]. *)
Theorem Get_item {W : Type} (h : handler W) (s : series) (g : GlobalItemID)
  (w : W) (b : BlockDelegate) :
  fst (h (blockDB_block g) w) = Ok (Some b) ->
  let out := run h (Get s g) w in
  exists it closer,
    returned out = Ok (it, closer) /\
    item_seriesID it = series_ID s /\
    item_itemID it = ID g /\
    item_data it =
      fst (h (delegate_dataReader b) (snd (h (blockDB_block g) w))) /\
    closer = b /\
    calls_of out = [blockDB_block g; delegate_dataReader b] /\
    calls_of (run h (Closer_Close closer) (state_after out)) =
      [delegate_Close b].
Proof.
  intros Hb out. subst out. unfold Get. rewrite run_call_bind, Hb.
  rewrite (run_call_bind h (delegate_dataReader b)).
  cbn [run returned state_after calls_of fst snd].
  eexists. eexists. repeat split.
  unfold Closer_Close. rewrite (run_call h (delegate_Close b)). reflexivity.
Qed.

Lemma Get_item_mem :
  fst (memDB_handler (blockDB_block present_id) db_one_block) =
    Ok (Some 1%N) /\
  exists it closer,
    returned (run memDB_handler (Get series0 present_id) db_one_block) =
      Ok (it, closer) /\
    item_seriesID it = series_ID series0 /\
    item_itemID it = 42 /\
    closer = 1%N.
Proof.
  assert (H : fst (memDB_handler (blockDB_block present_id) db_one_block) =
              Ok (Some 1%N)) by reflexivity.
  split; [exact H|].
  destruct (Get_item memDB_handler series0 present_id db_one_block 1%N H)
    as (it & closer & Hret & Hs & Hi & _ & Hc & _).
  exists it, closer. exact (conj Hret (conj Hs (conj Hi Hc))).
Defined.

(** * Further properties of the storage core *)

(** ** The codec as a key format *)

Lemma app_inj_length {A : Type} (x1 x2 y1 y2 : list A) :
  List.length x1 = List.length x2 ->
  x1 ++ y1 = x2 ++ y2 -> x1 = x2 /\ y1 = y2.
Proof.
  revert x2. induction x1 as [|a x1 IH]; intros [|b x2] Hlen Heq;
    try discriminate Hlen.
  - split; [reflexivity | exact Heq].
  - injection Hlen as Hlen. injection Heq as -> Heq.
    destruct (IH x2 Hlen Heq) as [-> ->]. split; reflexivity.
Qed.

Lemma be_bytes_inj (k : nat) (u v : N) :
  u < 256 ^ N.of_nat k -> v < 256 ^ N.of_nat k ->
  be_bytes k u = be_bytes k v -> u = v.
Proof.
  intros Hu Hv H.
  rewrite <- (be_value_be_bytes_small k u Hu),
          <- (be_value_be_bytes_small k v Hv).
  now rewrite H.
Qed.

(** X1.  Marshalling is injective: two global item ids with the same 24
    bytes are the same id, field for field. *)
Theorem Marshal_injective (a b : GlobalItemID) :
  wf_GlobalItemID a -> wf_GlobalItemID b ->
  Marshal a = Marshal b -> a = b.
Proof.
  intros Ha Hb H.
  destruct (Marshal_fields a Ha) as (A1 & A2 & A3 & A4 & A5).
  destruct (Marshal_fields b Hb) as (B1 & B2 & B3 & B4 & B5).
  rewrite H in A1, A2, A3, A4, A5.
  destruct a, b; cbn [ShardID segID blockID SeriesID ID] in *.
  congruence.
Qed.

Lemma Marshal_injective_s1 :
  wf_GlobalItemID s1_id /\ wf_GlobalItemID s1_next /\
  Marshal s1_id <> Marshal s1_next.
Proof.
  assert (Ha : wf_GlobalItemID s1_id) by (unfold wf_GlobalItemID; simpl; lia).
  assert (Hb : wf_GlobalItemID s1_next) by (unfold wf_GlobalItemID; simpl; lia).
  split; [exact Ha|]. split; [exact Hb|].
  intros H. apply (Marshal_injective s1_id s1_next Ha Hb) in H.
  discriminate H.
Defined.

(** X2.  The first 16 bytes of a marshalled id are a key of its series
    within its block: two ids agree on them exactly when they agree on
    shard, segment, block and series. *)
Theorem Marshal_series_prefix (a b : GlobalItemID) :
  wf_GlobalItemID a -> wf_GlobalItemID b ->
  (firstn 16 (Marshal a) = firstn 16 (Marshal b) <->
   ShardID a = ShardID b /\ segID a = segID b /\
   blockID a = blockID b /\ SeriesID a = SeriesID b).
Proof.
  intros Ha Hb.
  apply wf_bounds in Ha. destruct Ha as (Ha1 & Ha2 & Ha3 & Ha4 & _).
  apply wf_bounds in Hb. destruct Hb as (Hb1 & Hb2 & Hb3 & Hb4 & _).
  change (firstn 16 (Marshal a))
    with (convert.Uint32ToBytes (ShardID a) ++
          convert.Uint16ToBytes (segID a) ++
          convert.Uint16ToBytes (blockID a) ++
          convert.Uint64ToBytes (SeriesID a)).
  change (firstn 16 (Marshal b))
    with (convert.Uint32ToBytes (ShardID b) ++
          convert.Uint16ToBytes (segID b) ++
          convert.Uint16ToBytes (blockID b) ++
          convert.Uint64ToBytes (SeriesID b)).
  rewrite !Uint32ToBytes_be, !Uint16ToBytes_be, !Uint64ToBytes_be.
  split.
  - intros H.
    apply app_inj_length in H; [|now rewrite !be_bytes_length].
    destruct H as [H1 H].
    apply app_inj_length in H; [|now rewrite !be_bytes_length].
    destruct H as [H2 H].
    apply app_inj_length in H; [|now rewrite !be_bytes_length].
    destruct H as [H3 H4].
    repeat split; eapply be_bytes_inj; eassumption.
  - intros (-> & -> & -> & ->). reflexivity.
Qed.

Lemma Marshal_series_prefix_s1 :
  wf_GlobalItemID s1_id /\ wf_GlobalItemID s1_next /\
  firstn 16 (Marshal s1_id) <> firstn 16 (Marshal s1_next).
Proof.
  assert (Ha : wf_GlobalItemID s1_id) by (unfold wf_GlobalItemID; simpl; lia).
  assert (Hb : wf_GlobalItemID s1_next) by (unfold wf_GlobalItemID; simpl; lia).
  split; [exact Ha|]. split; [exact Hb|].
  intros H.
  apply (proj1 (Marshal_series_prefix s1_id s1_next Ha Hb)) in H.
  destruct H as (_ & _ & H & _). discriminate H.
Defined.

(** X3.  [UnMarshal] never panics, whatever the bytes: it returns, its
    error is [nil] exactly when the input has 24 bytes, and the only error
    it ever returns is [ErrItemIDMalformed]. *)
Theorem UnMarshal_total (i : GlobalItemID) (data : list byte) :
  exists i' err,
    UnMarshal i data = Some (i', err) /\
    (err = None <-> List.length data = 24%nat) /\
    (err = None \/ err = Some ErrItemIDMalformed).
Proof.
  destruct (Nat.eq_dec (List.length data) 24) as [Heq | Hne].
  - rewrite (UnMarshal_of_24 data i Heq).
    eexists. exists None. repeat split; auto.
  - exists i, (Some ErrItemIDMalformed). split.
    + unfold UnMarshal. change (4 + 2 + 2 + 8 + 8)%nat with 24%nat.
      destruct (Nat.eqb_spec (List.length data) 24); [contradiction|].
      reflexivity.
    + split; [|now right]. split; [discriminate | contradiction].
Qed.

(** X4.  A successful [UnMarshal] overwrites every field: on 24 bytes the
    receiver after the call does not depend on what it held before. *)
Theorem UnMarshal_forgets_receiver (i j : GlobalItemID) (data : list byte) :
  List.length data = 24%nat -> UnMarshal i data = UnMarshal j data.
Proof.
  intros H. now rewrite (UnMarshal_of_24 data i H), (UnMarshal_of_24 data j H).
Qed.

Lemma UnMarshal_forgets_receiver_s1 :
  List.length s1_bytes = 24%nat /\
  UnMarshal s1_id s1_bytes = UnMarshal s1_next s1_bytes.
Proof.
  assert (H : List.length s1_bytes = 24%nat) by reflexivity.
  exact (conj H (UnMarshal_forgets_receiver s1_id s1_next s1_bytes H)).
Defined.

(** ** Series over any block database *)

Lemma run_bind {W A B : Type} (h : handler W) (p : prog A)
  (f : A -> prog B) (w : W) :
  run h (bind p f) w =
  (returned (run h (f (returned (run h p w))) (state_after (run h p w))),
   state_after (run h (f (returned (run h p w))) (state_after (run h p w))),
   calls_of (run h p w) ++
   calls_of (run h (f (returned (run h p w))) (state_after (run h p w)))).
Proof.
  revert w. induction p as [a | c k IH]; intros w.
  - unfold returned, state_after, calls_of. simpl.
    destruct (run h (f a) w) as [[b w1] calls]. reflexivity.
  - simpl. destruct (h c w) as [r w1]. rewrite IH.
    unfold returned, state_after, calls_of.
    destruct (run h (k r) w1) as [[a w2] calls]. simpl. reflexivity.
Qed.

(** X5.  [newSeries] asks the block database for its shard id once and for
    nothing else; the series answers [ID] with the id it was made for, and
    every span it later opens carries that id, the shard id the database
    gave, and the range that was asked for. *)
Theorem newSeries_then_Span {W : Type} (h : handler W) (id : N) (w : W) :
  let out := run h (newSeries id) w in
  calls_of out = [blockDB_shardID] /\
  series_ID (returned out) = id /\
  forall r w' sp,
    returned (run h (Span (returned out) r) w') = Ok sp ->
    span_seriesID sp = id /\
    span_shardID sp = fst (h blockDB_shardID w) /\
    span_timeRange sp = r.
Proof.
  intros out. subst out. unfold newSeries.
  rewrite run_call_bind. cbn [run returned state_after calls_of fst snd].
  split; [reflexivity|]. split; [reflexivity|].
  intros r w' sp. unfold Span. rewrite run_call_bind.
  destruct (fst (h (blockDB_span r) w')) as [[|b bs] | e];
    cbn [List.length Nat.ltb Nat.leb run returned fst]; intros Hsp;
    try discriminate Hsp.
  injection Hsp as <-. repeat split.
Qed.

Lemma newSeries_then_Span_mem :
  let s := returned (run memDB_handler (newSeries 0xDEADBEEF) db_one_block) in
  returned (run memDB_handler (Span s (NewInclusiveTimeRange 1000 2000))
              db_one_block) =
    Ok (mkSeriesSpan [1]%N 0xDEADBEEF 7 (NewInclusiveTimeRange 1000 2000)) /\
  span_shardID (mkSeriesSpan [1]%N 0xDEADBEEF 7
                  (NewInclusiveTimeRange 1000 2000)) =
    fst (memDB_handler blockDB_shardID db_one_block).
Proof.
  intros s.
  assert (H : returned (run memDB_handler
                          (Span s (NewInclusiveTimeRange 1000 2000))
                          db_one_block) =
              Ok (mkSeriesSpan [1]%N 0xDEADBEEF 7
                    (NewInclusiveTimeRange 1000 2000))) by reflexivity.
  split; [exact H|].
  destruct (newSeries_then_Span memDB_handler 0xDEADBEEF db_one_block)
    as (_ & _ & Hspan).
  exact (proj1 (proj2 (Hspan _ _ _ H))).
Defined.

(** X6.  [Span] makes exactly one call, the database's [span] over the
    range asked for, and it fails in two ways only: with the error the
    database returned, or with [ErrEmptySeriesSpan] when the database found
    no block. *)
Theorem Span_failure {W : Type} (h : handler W) (s : series) (r : TimeRange)
  (w : W) :
  calls_of (run h (Span s r) w) = [blockDB_span r] /\
  state_after (run h (Span s r) w) = snd (h (blockDB_span r) w) /\
  forall e,
    returned (run h (Span s r) w) = Err e <->
    fst (h (blockDB_span r) w) = Err e \/
    (fst (h (blockDB_span r) w) = Ok [] /\ e = ErrEmptySeriesSpan).
Proof.
  unfold Span. rewrite run_call_bind.
  destruct (fst (h (blockDB_span r) w)) as [[|b bs] | e0];
    cbn [List.length Nat.ltb Nat.leb run returned state_after calls_of fst snd].
  - repeat split.
    + intros H. injection H as <-. right. split; reflexivity.
    + intros [H | [_ ->]]; [discriminate H | reflexivity].
  - repeat split.
    + intros H. discriminate H.
    + intros [H | [H _]]; discriminate H.
  - repeat split.
    + intros H. left. congruence.
    + intros [H | [H _]]; [congruence | discriminate H].
Qed.

(** X7.  [Create] never hands out a span without delegates; the span it
    returns carries the id and shard of the series; and it talks to the
    database by the [span] probe alone or by the probe followed by one
    [create], never by anything else. *)
Theorem Create_span_never_empty {W : Type} (h : handler W) (s : series)
  (t : Time) (w : W) :
  let out := run h (Create s t) w in
  (forall sp, returned out = Ok sp ->
     span_blocks sp <> [] /\
     span_seriesID sp = series_id s /\
     span_shardID sp = series_shardID s) /\
  (calls_of out = [blockDB_span (NewInclusiveTimeRange t t)] \/
   calls_of out =
     [blockDB_span (NewInclusiveTimeRange t t); blockDB_create t]).
Proof.
  intros out. subst out. unfold Create.
  set (tr := NewInclusiveTimeRange t t).
  rewrite run_call_bind.
  destruct (fst (h (blockDB_span tr) w)) as [[|b bs] | e].
  - cbn [List.length Nat.ltb Nat.leb]. rewrite run_call_bind.
    destruct (fst (h (blockDB_create t) (snd (h (blockDB_span tr) w))))
      as [b | e];
      cbn [run returned state_after calls_of fst snd app]; split; auto;
      intros sp Hsp; try discriminate Hsp.
    injection Hsp as <-. repeat split. discriminate.
  - cbn [List.length Nat.ltb Nat.leb run returned state_after calls_of fst snd].
    split; auto. intros sp Hsp. injection Hsp as <-. repeat split. discriminate.
  - cbn [run returned state_after calls_of fst snd].
    split; auto. intros sp Hsp. discriminate Hsp.
Qed.

Lemma Create_span_never_empty_mem :
  returned (run memDB_handler (Create series0 3000) db_one_block) =
    Ok (mkSeriesSpan [2]%N 0xDEADBEEF 7 (NewInclusiveTimeRange 3000 3000)) /\
  [2]%N <> [].
Proof.
  assert (H : returned (run memDB_handler (Create series0 3000) db_one_block) =
              Ok (mkSeriesSpan [2]%N 0xDEADBEEF 7
                    (NewInclusiveTimeRange 3000 3000))) by reflexivity.
  split; [exact H|].
  exact (proj1 (proj1 (Create_span_never_empty memDB_handler series0 3000
                         db_one_block) _ H)).
Defined.

(** X8.  [Create] is idempotent over a database that finds what it has
    created: when the probe over [[t, t]], asked again in the state that a
    first [Create] left, answers the delegates of the first span, a second
    [Create] returns the same span and does not call [create]. *)
Theorem Create_twice {W : Type} (h : handler W) (s : series) (t : Time)
  (w : W) (sp : seriesSpan) :
  let out := run h (Create s t) w in
  returned out = Ok sp ->
  fst (h (blockDB_span (NewInclusiveTimeRange t t)) (state_after out)) =
    Ok (span_blocks sp) ->
  returned (run h (Create s t) (state_after out)) = Ok sp /\
  calls_of (run h (Create s t) (state_after out)) =
    [blockDB_span (NewInclusiveTimeRange t t)].
Proof.
  intros out Hsp Hfind.
  assert (Hshape : span_blocks sp <> [] /\
                   sp = mkSeriesSpan (span_blocks sp) (series_id s)
                          (series_shardID s) (NewInclusiveTimeRange t t)).
  { subst out. revert Hsp. clear Hfind. unfold Create.
    set (tr := NewInclusiveTimeRange t t).
    rewrite run_call_bind.
    destruct (fst (h (blockDB_span tr) w)) as [[|b bs] | e].
    - cbn [List.length Nat.ltb Nat.leb]. rewrite run_call_bind.
      destruct (fst (h (blockDB_create t) (snd (h (blockDB_span tr) w))))
        as [b | e]; cbn [run returned fst]; intros Hsp;
        [injection Hsp as <- | discriminate Hsp].
      split; [discriminate | reflexivity].
    - cbn [List.length Nat.ltb Nat.leb run returned fst]. intros Hsp.
      injection Hsp as <-. split; [discriminate | reflexivity].
    - cbn [run returned fst]. intros Hsp. discriminate Hsp. }
  destruct Hshape as [Hne Heq].
  generalize dependent (state_after out). intros w1 Hfind.
  unfold Create. set (tr := NewInclusiveTimeRange t t) in *.
  rewrite run_call_bind, Hfind.
  destruct (span_blocks sp) as [|b bs] eqn:Hb; [contradiction|].
  cbn [List.length Nat.ltb Nat.leb run returned state_after calls_of fst snd].
  split; [|reflexivity]. now rewrite Heq.
Qed.

Lemma Create_twice_mem :
  let out := run memDB_handler (Create series0 3000) db_one_block in
  let sp := mkSeriesSpan [2]%N 0xDEADBEEF 7
              (NewInclusiveTimeRange 3000 3000) in
  returned out = Ok sp /\
  fst (memDB_handler (blockDB_span (NewInclusiveTimeRange 3000 3000))
         (state_after out)) = Ok (span_blocks sp) /\
  returned (run memDB_handler (Create series0 3000) (state_after out)) =
    Ok sp /\
  calls_of (run memDB_handler (Create series0 3000) (state_after out)) =
    [blockDB_span (NewInclusiveTimeRange 3000 3000)].
Proof.
  intros out sp.
  assert (H1 : returned out = Ok sp) by reflexivity.
  assert (H2 : fst (memDB_handler
                      (blockDB_span (NewInclusiveTimeRange 3000 3000))
                      (state_after out)) = Ok (span_blocks sp))
    by reflexivity.
  exact (conj H1 (conj H2
           (Create_twice memDB_handler series0 3000 db_one_block sp H1 H2))).
Defined.

(** X9.  Closing a span that [Span] or [Create] returned releases exactly
    the delegates that the call acquired from the database, each once and in
    order: those that [span] found or, when it found none, the one that
    [create] made. *)
Theorem acquired_delegates_closed {W : Type} (h : handler W) (s : series)
  (w : W) :
  (forall r sp w',
     returned (run h (Span s r) w) = Ok sp ->
     fst (h (blockDB_span r) w) = Ok (span_blocks sp) /\
     calls_of (run h (Close sp) w') = map delegate_Close (span_blocks sp)) /\
  (forall t sp w',
     returned (run h (Create s t) w) = Ok sp ->
     (fst (h (blockDB_span (NewInclusiveTimeRange t t)) w) =
        Ok (span_blocks sp) \/
      exists b,
        fst (h (blockDB_span (NewInclusiveTimeRange t t)) w) = Ok [] /\
        fst (h (blockDB_create t)
               (snd (h (blockDB_span (NewInclusiveTimeRange t t)) w))) =
          Ok b /\
        span_blocks sp = [b]) /\
     calls_of (run h (Close sp) w') = map delegate_Close (span_blocks sp)).
Proof.
  split.
  - intros r sp w'. unfold Span. rewrite run_call_bind.
    destruct (fst (h (blockDB_span r) w)) as [[|b bs] | e];
      cbn [List.length Nat.ltb Nat.leb run returned fst]; intros Hsp;
      try discriminate Hsp.
    injection Hsp as <-. split; [reflexivity|].
    apply (Close_loop_run h _ None w').
  - intros t sp w'. unfold Create.
    set (tr := NewInclusiveTimeRange t t).
    rewrite run_call_bind.
    destruct (fst (h (blockDB_span tr) w)) as [[|b bs] | e].
    + cbn [List.length Nat.ltb Nat.leb]. rewrite run_call_bind.
      destruct (fst (h (blockDB_create t) (snd (h (blockDB_span tr) w))))
        as [b | e]; cbn [run returned fst]; intros Hsp;
        [injection Hsp as <- | discriminate Hsp].
      split; [|apply (Close_loop_run h _ None w')].
      right. exists b. repeat split.
    + cbn [List.length Nat.ltb Nat.leb run returned fst]. intros Hsp.
      injection Hsp as <-.
      split; [left; reflexivity | apply (Close_loop_run h _ None w')].
    + cbn [run returned fst]. intros Hsp. discriminate Hsp.
Qed.

Lemma acquired_delegates_closed_mem :
  let r := NewInclusiveTimeRange 1500 2500 in
  let sp := mkSeriesSpan [1; 2]%N 0xDEADBEEF 7 r in
  returned (run memDB_handler (Span series0 r) db_three_blocks) = Ok sp /\
  calls_of (run memDB_handler (Close sp) db_three_blocks) =
    [delegate_Close 1; delegate_Close 2].
Proof.
  intros r sp.
  assert (H : returned (run memDB_handler (Span series0 r) db_three_blocks) =
              Ok sp) by reflexivity.
  split; [exact H|].
  exact (proj2 (proj1 (acquired_delegates_closed memDB_handler series0
                         db_three_blocks) r sp db_three_blocks H)).
Defined.

Lemma Errors_nil_of_None (answers : list (option error)) :
  Forall (eq None) answers -> flat_map multierr.Errors answers = [].
Proof.
  induction 1 as [|x l Hx _ IH]; [reflexivity|].
  subst x. simpl. exact IH.
Qed.

Lemma Close_loop_all_succeed {W : Type} (h : handler W)
  (blocks : list BlockDelegate) (err : option error) (w : W) :
  Forall (eq None) (Close_answers h blocks w) ->
  returned (run h (Close_loop err blocks) w) = err.
Proof.
  revert err w. induction blocks as [|d rest IH]; intros err w Hall.
  - reflexivity.
  - cbn [Close_loop Close_answers] in *. rewrite run_call_bind.
    destruct (h (delegate_Close d) w) as [r w1].
    cbn [fst snd returned] in *.
    inversion Hall as [|x l Hx Hrest]; subst.
    rewrite (IH _ _ Hrest).
    destruct err; reflexivity.
Qed.

(** X10.  When exactly one delegate of a span fails to close, [Close]
    returns that delegate's error itself, not an aggregate around it, and
    still closes all the others. *)
Theorem Close_single_failure {W : Type} (h : handler W) (sp : seriesSpan)
  (w : W) (before after : list (option error)) (e : error) :
  Close_answers h (span_blocks sp) w = before ++ Some e :: after ->
  Forall (eq None) before -> Forall (eq None) after ->
  returned (run h (Close sp) w) = Some e /\
  calls_of (run h (Close sp) w) = map delegate_Close (span_blocks sp).
Proof.
  intros Hans Hb Ha.
  split; [|apply (Close_loop_run h _ None w)].
  unfold Close. revert w before Hans Hb.
  generalize (span_blocks sp) as blocks.
  induction blocks as [|d rest IH]; intros w before Hans Hb.
  - destruct before; discriminate Hans.
  - cbn [Close_loop Close_answers] in *. rewrite run_call_bind.
    destruct (h (delegate_Close d) w) as [r w1].
    cbn [fst snd returned] in *.
    destruct before as [|x before].
    + injection Hans as -> Hrest. simpl.
      change (fst (fst (run h (Close_loop (Some e) rest) w1)))
        with (returned (run h (Close_loop (Some e) rest) w1)).
      apply Close_loop_all_succeed. now rewrite Hrest.
    + injection Hans as -> Hrest.
      inversion Hb as [|y l Hy Hb']; subst.
      simpl. exact (IH w1 before Hrest Hb').
Qed.

Lemma Close_single_failure_mem :
  let sp := mkSeriesSpan [2; 3]%N 0xDEADBEEF 7
              (mkTimeRange 2500 4000 true true) in
  Close_answers memDB_handler (span_blocks sp) db_three_blocks =
    [None] ++ Some (Upstream 3) :: [] /\
  returned (run memDB_handler (Close sp) db_three_blocks) =
    Some (Upstream 3).
Proof.
  intros sp.
  assert (H : Close_answers memDB_handler (span_blocks sp) db_three_blocks =
              [None] ++ Some (Upstream 3) :: []) by reflexivity.
  split; [exact H|].
  exact (proj1 (Close_single_failure memDB_handler sp db_three_blocks
                  [None] [] (Upstream 3) H
                  (Forall_cons None eq_refl (Forall_nil _))
                  (Forall_nil _))).
Defined.

(** X23.  Only [Close] releases delegates: [Span], [Create] and [Get]
    never close a delegate, whatever the database answers and also when
    they fail; [Get] calls [block] and, only when that resolved a delegate,
    [dataReader] of this delegate, and nothing else; [Close] in turn calls
    nothing but [Close] of delegates. *)
Theorem only_Close_closes {W : Type} (h : handler W) (s : series) (w : W) :
  (forall r, filter is_Close (calls_of (run h (Span s r) w)) = []) /\
  (forall t, filter is_Close (calls_of (run h (Create s t) w)) = []) /\
  (forall g,
     filter is_Close (calls_of (run h (Get s g) w)) = [] /\
     match fst (h (blockDB_block g) w) with
     | Ok (Some b) =>
         calls_of (run h (Get s g) w) =
         [blockDB_block g; delegate_dataReader b]
     | _ => calls_of (run h (Get s g) w) = [blockDB_block g]
     end) /\
  (forall sp, filter is_Close (calls_of (run h (Close sp) w)) =
              calls_of (run h (Close sp) w)).
Proof.
  split; [|split; [|split]].
  - intros r. unfold Span. rewrite run_call_bind.
    destruct (fst (h (blockDB_span r) w)) as [[|b bs] | e]; reflexivity.
  - intros t. unfold Create. rewrite run_call_bind.
    destruct (fst (h (blockDB_span (NewInclusiveTimeRange t t)) w))
      as [[|b bs] | e]; try reflexivity.
    cbn [List.length Nat.ltb Nat.leb]. rewrite run_call_bind.
    destruct (fst (h (blockDB_create t) _)) as [b | e]; reflexivity.
  - intros g. unfold Get. rewrite run_call_bind.
    destruct (fst (h (blockDB_block g) w)) as [[b|] | e];
      try (split; reflexivity).
    rewrite (run_call_bind h (delegate_dataReader b)).
    split; reflexivity.
  - intros sp. unfold Close.
    rewrite (proj1 (Close_loop_run h (span_blocks sp) None w)).
    induction (span_blocks sp) as [|d rest IH]; [reflexivity|].
    simpl. now rewrite IH.
Qed.

(** * Optimizers *)

Lemma Apply_app {Plan W : Type} (o1 o2 : logical.Optimizers Plan W)
  (plan : Plan) (w : W) :
  logical.Apply (o1 ++ o2) plan w =
  match logical.Apply o1 plan w with
  | (Err err, w1) => (Err err, w1)
  | (Ok plan1, w1) => logical.Apply o2 plan1 w1
  end.
Proof.
  revert plan w. induction o1 as [|opt o1 IH]; intros plan w.
  - reflexivity.
  - simpl. destruct (opt plan w) as [[plan1 | err] w1]; [apply IH | reflexivity].
Qed.

(** X11.  Lists of optimizers compose: applying a concatenation is applying
    the first list and then, if it succeeded, the second on its plan and
    state; and since a list of optimizers is itself an optimizer, nesting
    [o1] as one step in front of [o2] is the same as concatenating them. *)
Theorem Optimizers_compose {Plan W : Type} (o1 o2 : logical.Optimizers Plan W)
  (plan : Plan) (w : W) :
  logical.Apply (o1 ++ o2) plan w =
    match logical.Apply o1 plan w with
    | (Err err, w1) => (Err err, w1)
    | (Ok plan1, w1) => logical.Apply o2 plan1 w1
    end /\
  logical.Apply (logical.Apply o1 :: o2) plan w =
    logical.Apply (o1 ++ o2) plan w.
Proof.
  split; [apply Apply_app|]. rewrite Apply_app. reflexivity.
Qed.



(** X13.  What every optimizer of the list keeps, [Apply] keeps: if each
    one, when it succeeds, maps plans with property [P] to plans with
    property [P], then a successful [Apply] does. *)
Theorem Optimizers_keep_invariant {Plan W : Type} (P : Plan -> Prop)
  (o : logical.Optimizers Plan W) (plan plan' : Plan) (w w' : W) :
  Forall (fun opt : logical.Optimizer Plan W =>
            forall p v p' v', P p -> opt p v = (Ok p', v') -> P p') o ->
  P plan ->
  logical.Apply o plan w = (Ok plan', w') ->
  P plan'.
Proof.
  intros Hall. revert plan w.
  induction Hall as [|opt o Hopt _ IH]; intros plan w HP Happly.
  - simpl in Happly. injection Happly as <- _. exact HP.
  - simpl in Happly.
    destruct (opt plan w) as [[plan1 | err] w1] eqn:Hstep;
      [|discriminate Happly].
    exact (IH plan1 w1 (Hopt _ _ _ _ HP Hstep) Happly).
Qed.

Lemma Optimizers_keep_invariant_cost :
  logical.Apply [opt_halve; opt_even; opt_halve] 12 0%nat = (Ok 3, 3%nat) /\
  3 <= 12.
Proof.
  assert (H : logical.Apply [opt_halve; opt_even; opt_halve] 12 0%nat =
              (Ok 3, 3%nat)) by reflexivity.
  split; [exact H|].
  refine (Optimizers_keep_invariant (fun p => p <= 12)
            [opt_halve; opt_even; opt_halve] 12 3 0%nat 3%nat _ _ H).
  - repeat constructor; intros p v p' v' Hp Hstep.
    + unfold opt_halve in Hstep. injection Hstep as <- _.
      assert (p / 2 <= p) by (apply N.Div0.div_le_upper_bound; lia). lia.
    + unfold opt_even in Hstep.
      destruct (N.even p); [|discriminate Hstep].
      injection Hstep as <- _. exact Hp.
    + unfold opt_halve in Hstep. injection Hstep as <- _.
      assert (p / 2 <= p) by (apply N.Div0.div_le_upper_bound; lia). lia.
  - lia.
Defined.

(** * The gRPC server *)

Lemma exec_perform_bind {C : Type} {R : C -> Type} {W A : Type}
  (h : forall c : C, W -> R c * W) (c : C) (k : R c -> eff C R A) (w : W) :
  exec h (eff_bind (perform c) k) w =
  (value_of (exec h (k (fst (h c w))) (snd (h c w))),
   state_of (exec h (k (fst (h c w))) (snd (h c w))),
   c :: trace_of (exec h (k (fst (h c w))) (snd (h c w)))).
Proof.
  unfold value_of, state_of, trace_of. simpl.
  destruct (h c w) as [r w1]. simpl.
  destruct (exec h (k r) w1) as [[a w2] calls]. reflexivity.
Qed.

Lemma exec_bind {C : Type} {R : C -> Type} {W A B : Type}
  (h : forall c : C, W -> R c * W) (p : eff C R A) (f : A -> eff C R B)
  (w : W) :
  exec h (eff_bind p f) w =
  (value_of (exec h (f (value_of (exec h p w))) (state_of (exec h p w))),
   state_of (exec h (f (value_of (exec h p w))) (state_of (exec h p w))),
   trace_of (exec h p w) ++
   trace_of (exec h (f (value_of (exec h p w))) (state_of (exec h p w)))).
Proof.
  revert w. induction p as [a | c k IH]; intros w.
  - unfold value_of, state_of, trace_of. simpl.
    destruct (exec h (f a) w) as [[b w1] calls]. reflexivity.
  - simpl. destruct (h c w) as [r w1]. rewrite IH.
    unfold value_of, state_of, trace_of.
    destruct (exec h (k r) w1) as [[a w2] calls]. simpl. reflexivity.
Qed.

(** X14.  [Validate] accepts a server exactly when it has an address and
    either does not use TLS or names a certificate file and a key file that
    the TLS loader accepts. *)
Theorem Validate_accepts_iff {W : Type}
  (h : forall c : grpc.call, W -> grpc.answer c * W) (s : grpc.Server)
  (w : W) :
  fst (value_of (exec h (grpc.Validate s) w)) = None <->
  grpc.addr s <> ""%string /\
  (grpc.tls s = false \/
   (grpc.certFile s <> ""%string /\ grpc.keyFile s <> ""%string /\
    exists c,
      fst (h (grpc.NewServerTLSFromFile (grpc.certFile s) (grpc.keyFile s)) w)
      = Ok c)).
Proof.
  unfold grpc.Validate.
  destruct (String.eqb_spec (grpc.addr s) "") as [Ha | Ha].
  { simpl. split; [discriminate | intros [H _]; contradiction]. }
  destruct (grpc.tls s) eqn:Htls; cbn [negb].
  2:{ simpl. split; auto. }
  destruct (String.eqb_spec (grpc.certFile s) "") as [Hc | Hc].
  { simpl. split; [discriminate|].
    intros (_ & [H | (H & _)]); [discriminate | contradiction]. }
  destruct (String.eqb_spec (grpc.keyFile s) "") as [Hk | Hk].
  { simpl. split; [discriminate|].
    intros (_ & [H | (_ & H & _)]); [discriminate | contradiction]. }
  rewrite exec_perform_bind.
  destruct (fst (h (grpc.NewServerTLSFromFile (grpc.certFile s)
                      (grpc.keyFile s)) w)) as [c | e];
    cbn [exec value_of fst].
  - split; auto. intros _. split; [assumption|]. right.
    split; [assumption|]. split; [assumption|]. now exists c.
  - split; [discriminate|].
    intros (_ & [H | (_ & _ & c & H)]); discriminate.
Qed.

(** X15.  [Validate] touches nothing but the credentials: it calls the TLS
    loader at most once, and only for a server with an address, TLS, a
    certificate file and a key file; it stores credentials only when that
    load succeeded and otherwise leaves the server as it was. *)
Theorem Validate_effects {W : Type}
  (h : forall c : grpc.call, W -> grpc.answer c * W) (s : grpc.Server)
  (w : W) :
  let out := exec h (grpc.Validate s) w in
  let load := grpc.NewServerTLSFromFile (grpc.certFile s) (grpc.keyFile s) in
  (trace_of out = [] /\ snd (value_of out) = s /\ state_of out = w /\
   (grpc.addr s = ""%string \/ grpc.tls s = false \/
    grpc.certFile s = ""%string \/ grpc.keyFile s = ""%string)) \/
  (trace_of out = [load] /\ state_of out = snd (h load w) /\
   grpc.addr s <> ""%string /\ grpc.tls s = true /\
   grpc.certFile s <> ""%string /\ grpc.keyFile s <> ""%string /\
   match fst (h load w) with
   | Ok c => snd (value_of out) = grpc.set_creds c s
   | Err _ => snd (value_of out) = s
   end).
Proof.
  intros out load. subst out load. unfold grpc.Validate.
  destruct (String.eqb_spec (grpc.addr s) "") as [Ha | Ha].
  { left. simpl. repeat split; auto 6. }
  destruct (grpc.tls s) eqn:Htls; cbn [negb].
  2:{ left. simpl. repeat split; auto 6. }
  destruct (String.eqb_spec (grpc.certFile s) "") as [Hc | Hc].
  { left. simpl. repeat split; auto 6. }
  destruct (String.eqb_spec (grpc.keyFile s) "") as [Hk | Hk].
  { left. simpl. repeat split; auto 6. }
  right. rewrite exec_perform_bind.
  destruct (fst (h (grpc.NewServerTLSFromFile (grpc.certFile s)
                      (grpc.keyFile s)) w)) as [c | e];
    cbn [exec value_of state_of trace_of fst snd]; repeat split; assumption.
Qed.

(** X16.  The order of the checks of [Validate]: a missing address is
    reported before anything about TLS, a missing certificate file before a
    missing key file, and a failure of the loader comes back wrapped with
    its cause kept. *)
Theorem Validate_errors {W : Type}
  (h : forall c : grpc.call, W -> grpc.answer c * W) (s : grpc.Server)
  (w : W) :
  let err := fst (value_of (exec h (grpc.Validate s) w)) in
  (grpc.addr s = ""%string -> err = Some grpc.ErrNoAddr) /\
  (grpc.addr s <> ""%string -> grpc.tls s = true ->
   grpc.certFile s = ""%string -> err = Some grpc.ErrServerCert) /\
  (grpc.addr s <> ""%string -> grpc.tls s = true ->
   grpc.certFile s <> ""%string -> grpc.keyFile s = ""%string ->
   err = Some grpc.ErrServerKey) /\
  (forall e,
     grpc.addr s <> ""%string -> grpc.tls s = true ->
     grpc.certFile s <> ""%string -> grpc.keyFile s <> ""%string ->
     fst (h (grpc.NewServerTLSFromFile (grpc.certFile s) (grpc.keyFile s)) w)
     = Err e ->
     err = Some (grpc.Wrap e "failed to load cert and key")).
Proof.
  intros err. subst err. unfold grpc.Validate.
  destruct (String.eqb_spec (grpc.addr s) "") as [Ha | Ha].
  { simpl. repeat split; intros; try contradiction; reflexivity. }
  destruct (grpc.tls s) eqn:Htls; cbn [negb].
  2:{ simpl. repeat split; intros; try contradiction; discriminate. }
  destruct (String.eqb_spec (grpc.certFile s) "") as [Hc | Hc].
  { simpl. repeat split; intros; try contradiction; reflexivity. }
  destruct (String.eqb_spec (grpc.keyFile s) "") as [Hk | Hk].
  { simpl. repeat split; intros; try contradiction; reflexivity. }
  rewrite exec_perform_bind.
  repeat split; intros; try contradiction.
  match goal with H : fst _ = Err _ |- _ => rewrite H end.
  reflexivity.
Qed.

Lemma Validate_errors_scenarios :
  (grpc.addr server_tls_bad_key <> ""%string /\
   grpc.tls server_tls_bad_key = true /\
   grpc.certFile server_tls_bad_key <> ""%string /\
   grpc.keyFile server_tls_bad_key <> ""%string /\
   fst (grpc_handler (grpc.NewServerTLSFromFile "server.crt" "other.key")
          ([], 0%nat)) = Err (Upstream 2) /\
   fst (value_of (exec grpc_handler (grpc.Validate server_tls_bad_key)
                    ([], 0%nat))) =
     Some (grpc.Wrap (Upstream 2) "failed to load cert and key")).
Proof.
  assert (Ha : grpc.addr server_tls_bad_key <> ""%string) by discriminate.
  assert (Ht : grpc.tls server_tls_bad_key = true) by reflexivity.
  assert (Hc : grpc.certFile server_tls_bad_key <> ""%string) by discriminate.
  assert (Hk : grpc.keyFile server_tls_bad_key <> ""%string) by discriminate.
  assert (Hl : fst (grpc_handler
                      (grpc.NewServerTLSFromFile
                         (grpc.certFile server_tls_bad_key)
                         (grpc.keyFile server_tls_bad_key))
                      ([], 0%nat)) = Err (Upstream 2)) by reflexivity.
  destruct (Validate_errors grpc_handler server_tls_bad_key ([], 0%nat))
    as (_ & _ & _ & Hload).
  exact (conj Ha (conj Ht (conj Hc (conj Hk (conj Hl
           (Hload (Upstream 2) Ha Ht Hc Hk Hl)))))).
Defined.

Lemma Validate_accepts_iff_tls :
  fst (value_of (exec grpc_handler (grpc.Validate server_tls) ([], 0%nat))) =
    None /\
  fst (value_of (exec grpc_handler (grpc.Validate server_tls_bad_key)
                   ([], 0%nat))) <> None.
Proof.
  split.
  - apply (proj2 (Validate_accepts_iff grpc_handler server_tls ([], 0%nat))).
    split; [discriminate|]. right.
    split; [discriminate|]. split; [discriminate|].
    eexists. reflexivity.
  - intros H.
    apply (proj1 (Validate_accepts_iff grpc_handler server_tls_bad_key
                    ([], 0%nat))) in H.
    destruct H as (_ & [H | (_ & _ & c & H)]); discriminate H.
Defined.

(** X17.  The defaults that [FlagSet] registers pass [Validate]: whatever
    the server held before, after [FlagSet] it listens on [:17912] without
    TLS, accepts messages up to ten mebibytes, and [Validate] accepts it
    without loading any certificate; the flags are registered under names
    that are all different. *)
Theorem FlagSet_defaults_validate {W : Type}
  (h : forall c : grpc.call, W -> grpc.answer c * W) (s : grpc.Server)
  (w : W) :
  let s' := snd (grpc.FlagSet s) in
  exec h (grpc.Validate s') w = ((None, s'), w, []) /\
  grpc.addr s' = ":17912"%string /\ grpc.tls s' = false /\
  grpc.maxRecvMsgSize s' = 10485760%Z /\
  grpc.creds s' = grpc.creds s /\
  NoDup (map (fun f => match f with
                       | grpc.IntVarP n _ _ _
                       | grpc.BoolVarP n _ _ _
                       | grpc.StringVarP n _ _ _ => n
                       end) (snd (fst (grpc.FlagSet s)))).
Proof.
  intros s'. subst s'. repeat split.
  simpl. repeat constructor; simpl;
    intros H; repeat (destruct H as [H | H]; [discriminate H|]); exact H.
Qed.

(** ** PreRun *)

(** X18.  [PreRun] names the server's logger [liaison-grpc], gives it to
    each discovery service and subscribes, in this order, the stream
    service's repositories to the stream topics and the measure service's
    to the measure topics.  It stops at the first subscription that fails
    and returns that error as it is; with four successful subscriptions it
    returns [nil], having made exactly these six calls. *)
Theorem PreRun_subscriptions {W : Type}
  (h : forall c : grpc.call, W -> grpc.answer c * W) (s : grpc.Server)
  (w : W) :
  let l := Some (grpc.GetLogger "liaison-grpc") in
  let c1 := grpc.SetLogger grpc.streamSVC l in
  let c2 := grpc.Subscribe grpc.StreamTopicShardEvent
              (grpc.shardRepo grpc.streamSVC) in
  let c3 := grpc.Subscribe grpc.StreamTopicEntityEvent
              (grpc.entityRepo grpc.streamSVC) in
  let c4 := grpc.SetLogger grpc.measureSVC l in
  let c5 := grpc.Subscribe grpc.MeasureTopicShardEvent
              (grpc.shardRepo grpc.measureSVC) in
  let c6 := grpc.Subscribe grpc.MeasureTopicEntityEvent
              (grpc.entityRepo grpc.measureSVC) in
  let w1 := snd (h c1 w) in
  let w2 := snd (h c2 w1) in
  let w3 := snd (h c3 w2) in
  let w4 := snd (h c4 w3) in
  let w5 := snd (h c5 w4) in
  let out := exec h (grpc.PreRun s) w in
  snd (value_of out) = grpc.set_log (grpc.GetLogger "liaison-grpc") s /\
  (forall e, fst (h c2 w1) = Some e ->
     fst (value_of out) = Some e /\ trace_of out = [c1; c2]) /\
  (forall e, fst (h c2 w1) = None -> fst (h c3 w2) = Some e ->
     fst (value_of out) = Some e /\ trace_of out = [c1; c2; c3]) /\
  (forall e, fst (h c2 w1) = None -> fst (h c3 w2) = None ->
     fst (h c5 w4) = Some e ->
     fst (value_of out) = Some e /\ trace_of out = [c1; c2; c3; c4; c5]) /\
  (fst (h c2 w1) = None -> fst (h c3 w2) = None ->
   fst (h c5 w4) = None ->
   fst (value_of out) = fst (h c6 w5) /\
   trace_of out = [c1; c2; c3; c4; c5; c6]).
Proof.
  intros l c1 c2 c3 c4 c5 c6 w1 w2 w3 w4 w5 out.
  subst out. unfold grpc.PreRun. rewrite exec_bind.
  cbn [grpc.log grpc.set_log grpc.components grpc.PreRun_loop
       grpc.discoverySVC grpc.shardEvent grpc.entityEvent].
  fold l. fold c1 c2 c3 c4 c5 c6.
  rewrite (exec_perform_bind h c1). fold w1.
  rewrite (exec_perform_bind h c2). fold w2.
  destruct (fst (h c2 w1)) as [e2|].
  { cbn [exec value_of state_of trace_of fst snd app].
    repeat split; intros; try discriminate; congruence. }
  rewrite (exec_perform_bind h c3). fold w3.
  destruct (fst (h c3 w2)) as [e3|].
  { cbn [exec value_of state_of trace_of fst snd app].
    repeat split; intros; try discriminate; congruence. }
  rewrite (exec_perform_bind h c4). fold w4.
  rewrite (exec_perform_bind h c5). fold w5.
  destruct (fst (h c5 w4)) as [e5|].
  { cbn [exec value_of state_of trace_of fst snd app].
    repeat split; intros; try discriminate; congruence. }
  rewrite (exec_perform_bind h c6).
  destruct (fst (h c6 w5)) as [e6|];
    cbn [exec value_of state_of trace_of fst snd app];
    repeat split; intros; try discriminate; congruence.
Qed.

Lemma PreRun_subscriptions_refused :
  let w : grpc_world := ([grpc.MeasureTopicShardEvent], 0%nat) in
  let out := exec grpc_handler (grpc.PreRun server_plain) w in
  fst (value_of out) = Some (Upstream 9) /\
  List.length (trace_of out) = 5%nat /\
  snd (state_of out) = 5%nat.
Proof.
  intros w out.
  destruct (PreRun_subscriptions grpc_handler server_plain w)
    as (_ & _ & _ & Hfifth & _).
  destruct (Hfifth (Upstream 9) eq_refl eq_refl eq_refl) as (Herr & Htrace).
  split; [exact Herr|].
  split; [subst out; rewrite Htrace; reflexivity | reflexivity].
Defined.

(** X19.  Whatever the collaborators answer, the calls of [PreRun] are an
    initial part of one fixed script: it never subscribes more than four
    times, never a topic twice, and never a listener of one service to a
    topic of the other. *)
Theorem PreRun_script {W : Type}
  (h : forall c : grpc.call, W -> grpc.answer c * W) (s : grpc.Server)
  (w : W) :
  let l := Some (grpc.GetLogger "liaison-grpc") in
  exists rest,
    trace_of (exec h (grpc.PreRun s) w) ++ rest =
    [grpc.SetLogger grpc.streamSVC l;
     grpc.Subscribe grpc.StreamTopicShardEvent (grpc.shardRepo grpc.streamSVC);
     grpc.Subscribe grpc.StreamTopicEntityEvent
       (grpc.entityRepo grpc.streamSVC);
     grpc.SetLogger grpc.measureSVC l;
     grpc.Subscribe grpc.MeasureTopicShardEvent
       (grpc.shardRepo grpc.measureSVC);
     grpc.Subscribe grpc.MeasureTopicEntityEvent
       (grpc.entityRepo grpc.measureSVC)].
Proof.
  intros l. unfold grpc.PreRun. rewrite exec_bind.
  cbn [grpc.log grpc.set_log grpc.components grpc.PreRun_loop
       grpc.discoverySVC grpc.shardEvent grpc.entityEvent].
  fold l.
  repeat (rewrite exec_perform_bind;
          cbn [exec value_of state_of trace_of fst snd app];
          try match goal with
              | |- context [match fst ?x with _ => _ end] =>
                  destruct (fst x)
              end;
          cbn [exec value_of state_of trace_of fst snd app]);
    eexists; simpl; reflexivity.
Qed.

(** * The channel source *)



(** * The schema of a measure *)

Lemma exec_registerTags {W : Type}
  (h : forall c : measure.call, W -> measure.answer c * W)
  (f j : nat) (tags : list measure.TagSpec) (w : W) :
  trace_of (exec h (measure.registerTags f j tags) w) = tag_calls f j tags.
Proof.
  revert j w. induction tags as [|spec rest IH]; intros j w.
  - reflexivity.
  - cbn [measure.registerTags tag_calls]. rewrite exec_perform_bind.
    cbn [trace_of snd]. f_equal. apply IH.
Qed.

Lemma exec_registerTagFamilies {W : Type}
  (h : forall c : measure.call, W -> measure.answer c * W)
  (f : nat) (families : list measure.TagFamilySpec) (w : W) :
  trace_of (exec h (measure.registerTagFamilies f families) w) =
  family_calls f families.
Proof.
  revert f w. induction families as [|fam rest IH]; intros f w.
  - reflexivity.
  - cbn [measure.registerTagFamilies family_calls]. rewrite exec_bind.
    cbn [trace_of snd]. rewrite exec_registerTags. f_equal. apply IH.
Qed.

Lemma exec_registerFields {W : Type}
  (h : forall c : measure.call, W -> measure.answer c * W)
  (i : nat) (fields : list measure.FieldSpec) (w : W) :
  trace_of (exec h (measure.registerFields i fields) w) = field_calls i fields.
Proof.
  revert i w. induction fields as [|spec rest IH]; intros i w.
  - reflexivity.
  - cbn [measure.registerFields field_calls]. rewrite exec_perform_bind.
    cbn [trace_of snd]. f_equal. apply IH.
Qed.

Lemma In_tag_calls (f j0 : nat) (tags : list measure.TagSpec)
  (i j : nat) (spec : measure.TagSpec) :
  In (measure.registerTag i j spec) (tag_calls f j0 tags) <->
  i = f /\ (j0 <= j)%nat /\ nth_error tags (j - j0) = Some spec.
Proof.
  revert j0. induction tags as [|t rest IH]; intros j0.
  - simpl. split; [contradiction|]. intros (_ & _ & H).
    destruct (j - j0)%nat; discriminate H.
  - cbn [tag_calls In]. rewrite IH. split.
    + intros [H | (-> & Hle & Hnth)].
      * injection H as -> -> ->. rewrite Nat.sub_diag. auto.
      * split; [reflexivity|]. split; [lia|].
        replace (j - j0)%nat with (S (j - S j0)) by lia. exact Hnth.
    + intros (-> & Hle & Hnth).
      destruct (Nat.eq_dec j j0) as [-> | Hne].
      * rewrite Nat.sub_diag in Hnth. injection Hnth as ->. now left.
      * right. split; [reflexivity|]. split; [lia|].
        replace (j - j0)%nat with (S (j - S j0)) in Hnth by lia. exact Hnth.
Qed.

Lemma In_family_calls (i0 : nat) (families : list measure.TagFamilySpec)
  (i j : nat) (spec : measure.TagSpec) :
  In (measure.registerTag i j spec) (family_calls i0 families) <->
  (i0 <= i)%nat /\
  exists fam, nth_error families (i - i0) = Some fam /\
              nth_error (measure.family_tags fam) j = Some spec.
Proof.
  revert i0. induction families as [|fam rest IH]; intros i0.
  - simpl. split; [contradiction|]. intros (_ & fam & H & _).
    destruct (i - i0)%nat; discriminate H.
  - cbn [family_calls]. rewrite in_app_iff, In_tag_calls, IH. split.
    + intros [(-> & _ & Hnth) | (Hle & fam' & Hf & Hnth)].
      * split; [lia|]. exists fam. rewrite Nat.sub_diag, Nat.sub_0_r in *.
        auto.
      * split; [lia|]. exists fam'.
        replace (i - i0)%nat with (S (i - S i0)) by lia. auto.
    + intros (Hle & fam' & Hf & Hnth).
      destruct (Nat.eq_dec i i0) as [-> | Hne].
      * left. rewrite Nat.sub_diag in Hf. injection Hf as ->.
        rewrite Nat.sub_0_r. repeat split; [lia | exact Hnth].
      * right. split; [lia|]. exists fam'.
        replace (i - i0)%nat with (S (i - S i0)) in Hf by lia. auto.
Qed.

Lemma In_field_calls (i0 : nat) (fields : list measure.FieldSpec)
  (i : nat) (spec : measure.FieldSpec) :
  In (measure.registerField i spec) (field_calls i0 fields) <->
  (i0 <= i)%nat /\ nth_error fields (i - i0) = Some spec.
Proof.
  revert i0. induction fields as [|t rest IH]; intros i0.
  - simpl. split; [contradiction|]. intros (_ & H).
    destruct (i - i0)%nat; discriminate H.
  - cbn [field_calls In]. rewrite IH. split.
    + intros [H | (Hle & Hnth)].
      * injection H as -> ->. rewrite Nat.sub_diag. auto.
      * split; [lia|].
        replace (i - i0)%nat with (S (i - S i0)) by lia. exact Hnth.
    + intros (Hle & Hnth).
      destruct (Nat.eq_dec i i0) as [-> | Hne].
      * rewrite Nat.sub_diag in Hnth. injection Hnth as ->. now left.
      * right. split; [lia|].
        replace (i - i0)%nat with (S (i - S i0)) in Hnth by lia. exact Hnth.
Qed.

Lemma no_field_in_tag_calls (f j0 : nat) (tags : list measure.TagSpec)
  (i : nat) (spec : measure.FieldSpec) :
  ~ In (measure.registerField i spec) (tag_calls f j0 tags).
Proof.
  revert j0. induction tags as [|t rest IH]; intros j0; simpl.
  - auto.
  - intros [H | H]; [discriminate H | exact (IH _ H)].
Qed.

Lemma no_field_in_family_calls (i0 : nat)
  (families : list measure.TagFamilySpec) (i : nat)
  (spec : measure.FieldSpec) :
  ~ In (measure.registerField i spec) (family_calls i0 families).
Proof.
  revert i0. induction families as [|fam rest IH]; intros i0; simpl.
  - auto.
  - rewrite in_app_iff. intros [H | H];
      [exact (no_field_in_tag_calls _ _ _ _ _ H) | exact (IH _ H)].
Qed.

Lemma no_tag_in_field_calls (i0 : nat) (fields : list measure.FieldSpec)
  (i j : nat) (spec : measure.TagSpec) :
  ~ In (measure.registerTag i j spec) (field_calls i0 fields).
Proof.
  revert i0. induction fields as [|t rest IH]; intros i0; simpl.
  - auto.
  - intros [H | H]; [discriminate H | exact (IH _ H)].
Qed.

(** X21.  [BuildSchema] looks up the group, then the measure, then the
    index rules; the first lookup that fails ends it with that error, the
    later lookups are not made, and no tag or field is registered. *)
Theorem BuildSchema_lookup_failure {W : Type}
  (h : forall c : measure.call, W -> measure.answer c * W)
  (metadata : option measure.Metadata) (w : W) :
  let c1 := measure.GroupRegistry_GetGroup (measure.GetGroup metadata) in
  let c2 := measure.MeasureRegistry_GetMeasure metadata in
  let c3 := measure.IndexRules metadata in
  let w1 := snd (h c1 w) in
  let w2 := snd (h c2 w1) in
  let out := exec h (measure.BuildSchema metadata) w in
  (forall e, fst (h c1 w) = Err e ->
     value_of out = Err e /\ trace_of out = [c1]) /\
  (forall g e, fst (h c1 w) = Ok g -> fst (h c2 w1) = Err e ->
     value_of out = Err e /\ trace_of out = [c1; c2]) /\
  (forall g m e, fst (h c1 w) = Ok g -> fst (h c2 w1) = Ok m ->
     fst (h c3 w2) = Err e ->
     value_of out = Err e /\ trace_of out = [c1; c2; c3]).
Proof.
  intros c1 c2 c3 w1 w2 out. subst out. unfold measure.BuildSchema.
  fold c1 c2 c3.
  rewrite (exec_perform_bind h c1). fold w1.
  destruct (fst (h c1 w)) as [g | e1].
  2:{ cbn [exec value_of trace_of fst snd].
      repeat split; intros; try discriminate; congruence. }
  rewrite (exec_perform_bind h c2). fold w2.
  destruct (fst (h c2 w1)) as [m | e2].
  2:{ cbn [exec value_of trace_of fst snd].
      repeat split; intros; try discriminate; congruence. }
  rewrite (exec_perform_bind h c3).
  destruct (fst (h c3 w2)) as [rules | e3].
  2:{ cbn [exec value_of trace_of fst snd].
      repeat split; intros; try discriminate; congruence. }
  repeat split; intros; discriminate.
Qed.

Lemma BuildSchema_lookup_failure_unknown :
  let md := Some (measure.mkMetadata "sw_metric" "unknown") in
  fst (repo_handler (measure.GroupRegistry_GetGroup "sw_metric") 0%nat) =
    Ok (Some (measure.groupOf "sw_metric" 2)) /\
  fst (repo_handler (measure.MeasureRegistry_GetMeasure md) 1%nat) =
    Err (Upstream 5) /\
  value_of (exec repo_handler (measure.BuildSchema md) 0%nat) =
    Err (Upstream 5) /\
  trace_of (exec repo_handler (measure.BuildSchema md) 0%nat) =
    [measure.GroupRegistry_GetGroup "sw_metric";
     measure.MeasureRegistry_GetMeasure md].
Proof.
  intros md.
  assert (H1 : fst (repo_handler
                      (measure.GroupRegistry_GetGroup (measure.GetGroup md))
                      0%nat) = Ok (Some (measure.groupOf "sw_metric" 2)))
    by reflexivity.
  assert (H2 : fst (repo_handler (measure.MeasureRegistry_GetMeasure md)
                      (snd (repo_handler
                              (measure.GroupRegistry_GetGroup
                                 (measure.GetGroup md)) 0%nat))) =
               Err (Upstream 5)) by reflexivity.
  destruct (BuildSchema_lookup_failure repo_handler md 0%nat)
    as (_ & Hsecond & _).
  destruct (Hsecond _ _ H1 H2) as (Hv & Ht).
  exact (conj H1 (conj H2 (conj Hv Ht))).
Defined.

(** X22.  When the three lookups succeed, [BuildSchema] returns a schema
    with the group, the index rules and the measure it was given and the
    entity tags of the measure, and after the lookups it registers every
    tag under the index of its family and its index within the family,
    then every field under its index: a registration is made exactly when
    the measure has that tag or field at that place, and all tags come
    before all fields. *)
Theorem BuildSchema_registers {W : Type}
  (h : forall c : measure.call, W -> measure.answer c * W)
  (metadata : option measure.Metadata) (w : W)
  (g : option measure.Group) (m : option measure.Measure)
  (rules : list measure.IndexRule) :
  let c1 := measure.GroupRegistry_GetGroup (measure.GetGroup metadata) in
  let c2 := measure.MeasureRegistry_GetMeasure metadata in
  let c3 := measure.IndexRules metadata in
  let w1 := snd (h c1 w) in
  let w2 := snd (h c2 w1) in
  let out := exec h (measure.BuildSchema metadata) w in
  fst (h c1 w) = Ok g -> fst (h c2 w1) = Ok m -> fst (h c3 w2) = Ok rules ->
  value_of out =
    Ok (measure.mkSchema g rules (measure.GetEntity_GetTagNames m) m) /\
  trace_of out =
    [c1; c2; c3] ++ family_calls 0 (measure.GetTagFamilies m) ++
    field_calls 0 (measure.GetFields m) /\
  (forall i j spec,
     In (measure.registerTag i j spec) (trace_of out) <->
     exists fam, nth_error (measure.GetTagFamilies m) i = Some fam /\
                 nth_error (measure.family_tags fam) j = Some spec) /\
  (forall i spec,
     In (measure.registerField i spec) (trace_of out) <->
     nth_error (measure.GetFields m) i = Some spec).
Proof.
  intros c1 c2 c3 w1 w2 out H1 H2 H3.
  assert (Hout : value_of out =
                   Ok (measure.mkSchema g rules
                         (measure.GetEntity_GetTagNames m) m) /\
                 trace_of out =
                   [c1; c2; c3] ++
                   family_calls 0 (measure.GetTagFamilies m) ++
                   field_calls 0 (measure.GetFields m)).
  { subst out. unfold measure.BuildSchema. fold c1 c2 c3.
    rewrite (exec_perform_bind h c1). fold w1. rewrite H1.
    rewrite (exec_perform_bind h c2). fold w2. rewrite H2.
    rewrite (exec_perform_bind h c3). rewrite H3.
    rewrite !exec_bind.
    cbn [exec value_of state_of trace_of fst snd app].
    rewrite exec_registerTagFamilies, exec_registerFields.
    rewrite app_nil_r. split; reflexivity. }
  destruct Hout as [Hv Ht]. split; [exact Hv|]. split; [exact Ht|].
  rewrite Ht. split.
  - intros i j spec. cbn [app In]. rewrite in_app_iff, In_family_calls.
    rewrite Nat.sub_0_r. split.
    + intros [H | [H | [H | [(_ & H) | H]]]]; try discriminate H.
      * exact H.
      * elim (no_tag_in_field_calls _ _ _ _ _ H).
    + intros H. right. right. right. left. split; [lia | exact H].
  - intros i spec. cbn [app In]. rewrite in_app_iff, In_field_calls.
    rewrite Nat.sub_0_r. split.
    + intros [H | [H | [H | [H | (_ & H)]]]]; try discriminate H.
      * elim (no_field_in_family_calls _ _ _ _ H).
      * exact H.
    + intros H. right. right. right. right. split; [lia | exact H].
Qed.

Lemma BuildSchema_registers_cpm :
  let md := Some (measure.mkMetadata "sw_metric" "service_cpm") in
  let out := exec repo_handler (measure.BuildSchema md) 0%nat in
  value_of out =
    Ok (measure.mkSchema (Some (measure.groupOf "sw_metric" 2))
          [measure.indexRuleOf "entity_id"] ["entity_id"%string] (Some cpm)) /\
  In (measure.registerTag 1 0 (measure.mkTagSpec "scope" 1)) (trace_of out) /\
  state_of out = 8%nat.
Proof.
  intros md out.
  destruct (BuildSchema_registers repo_handler md 0%nat
              (Some (measure.groupOf "sw_metric" 2)) (Some cpm)
              [measure.indexRuleOf "entity_id"] eq_refl eq_refl eq_refl)
    as (Hv & _ & Htags & _).
  split; [exact Hv|]. split; [|reflexivity].
  apply (proj2 (Htags 1%nat 0%nat (measure.mkTagSpec "scope" 1))).
  eexists. split; reflexivity.
Defined.
